(** * rag_mcp: chunking, document store, index build and query

    A shallow embedding of [src/rag_mcp/indexer.py] and of the parts of
    [documents.py] and [embeddings.py] that it uses, with the properties
    the specification states about them.

    Conventions.
    - A Python [str] is a list of Unicode code points ([str := list N]);
      [lit] turns a Rocq string literal into one.
    - A Python [int] is a [Z]; [len] returns a [Z].
    - A call either returns, raises, or does not terminate ([outcome]).
    - Cosine distances (Python floats) are modelled as exact rationals
      ([Q]): the code only compares them with [<] and computes
      [1.0 - distance]; rounding and NaN are outside the model. *)

From stdpp Require Import base gmap strings list sorting.
From Stdlib Require Import ZArith NArith QArith Lia.
From Stdlib Require DecimalString DecimalNat.
Close Scope Q_scope.
Open Scope Z_scope.

(** ** Python values *)

Definition char := N.
Definition str := list char.

Definition lit (s : string) : str :=
  map Ascii.N_of_ascii (String.list_ascii_of_string s).

Definition len {A} (l : list A) : Z := Z.of_nat (length l).

(** [Py_UNICODE_ISSPACE]: the code points [str.strip()] removes. *)
Definition isspace (c : char) : bool :=
  ((9 <=? c) && (c <=? 13) || (28 <=? c) && (c <=? 32)
   || (c =? 133) || (c =? 160) || (c =? 5760)
   || (8192 <=? c) && (c <=? 8202)
   || (c =? 8232) || (c =? 8233) || (c =? 8239) || (c =? 8287)
   || (c =? 12288))%N.

Fixpoint lstrip (s : str) : str :=
  match s with
  | [] => []
  | c :: s' => if isspace c then lstrip s' else s
  end.

Definition rstrip (s : str) : str := rev (lstrip (rev s)).

(** [s.strip()] *)
Definition strip (s : str) : str := rstrip (lstrip s).

(** Index adjustment of [s[a:b]] (step 1): a negative index counts from
    the end, and both ends are clipped to [0, len s]. *)
Definition adjust_index (n i : Z) : Z :=
  if i <? 0 then Z.max 0 (i + n) else Z.min i n.

(** [s[a:b]] *)
Definition slice {A} (s : list A) (a b : Z) : list A :=
  let a' := adjust_index (len s) a in
  let b' := adjust_index (len s) b in
  take (Z.to_nat (b' - a')) (drop (Z.to_nat a') s).

(** Truth value of a string or a list: non-empty. *)
Definition truthy {A} (l : list A) : bool :=
  match l with [] => false | _ => true end.

Inductive exn : Type :=
  | ValueError (msg : str)
  | RuntimeError (msg : str)
  | IndexError (msg : str)
  | BackendError (msg : str).

Inductive outcome (A : Type) : Type :=
  | Ok (a : A)
  | Raise (e : exn)
  | Diverge.
Arguments Ok {A} a.
Arguments Raise {A} e.
Arguments Diverge {A}.

(** ** The chunker *)

(** The [while start < length] loop of [chunk_text].  [fuel] bounds the
    number of iterations; [None] means the bound was reached with the loop
    still running. *)
Fixpoint chunk_loop (fuel : nat) (text : str) (chunk_size overlap : Z)
    (start : Z) (chunks : list str) : option (list str) :=
  match fuel with
  | O => None
  | S fuel' =>
      let length := len text in
      if start <? length then
        let end_ := Z.min (start + chunk_size) length in
        let chunk := strip (slice text start end_) in
        let chunks := if truthy chunk then chunks ++ [chunk] else chunks in
        if end_ >=? length then Some chunks
        else chunk_loop fuel' text chunk_size overlap (end_ - overlap) chunks
      else Some chunks
  end.

(** [overlap = max(0, min(chunk_overlap, chunk_size - 1))] *)
Definition clamp_overlap (chunk_size chunk_overlap : Z) : Z :=
  Z.max 0 (Z.min chunk_overlap (chunk_size - 1)).

Definition chunk_fuel (text : str) : nat := S (length text).

Definition chunk_text (text : str) (chunk_size chunk_overlap : Z)
    : outcome (list str) :=
  if chunk_size <=? 0 then
    Raise (ValueError (lit "chunk_size must be positive"))
  else
    let overlap := clamp_overlap chunk_size chunk_overlap in
    match chunk_loop (chunk_fuel text) text chunk_size overlap 0 [] with
    | Some chunks => Ok chunks
    | None => Diverge
    end.

(** The successive windows [(start, end)] the loop of [chunk_text] visits:
    the same loop, recording the window instead of its trimmed text. *)
Fixpoint windows_from (fuel : nat) (length chunk_size overlap : Z)
    (start : Z) : option (list (Z * Z)) :=
  match fuel with
  | O => None
  | S fuel' =>
      if start <? length then
        let end_ := Z.min (start + chunk_size) length in
        if end_ >=? length then Some [(start, end_)]
        else
          match windows_from fuel' length chunk_size overlap
                  (end_ - overlap) with
          | Some ws => Some ((start, end_) :: ws)
          | None => None
          end
      else Some []
  end.

(** What the loop does, as a relation between the start of the scan and the
    windows it visits. *)
Inductive scan (length chunk_size overlap : Z) : Z -> list (Z * Z) -> Prop :=
  | scan_done start :
      length <= start -> scan length chunk_size overlap start []
  | scan_last start :
      start < length -> length <= start + chunk_size ->
      scan length chunk_size overlap start [(start, length)]
  | scan_step start ws :
      start < length -> start + chunk_size < length ->
      scan length chunk_size overlap (start + chunk_size - overlap) ws ->
      scan length chunk_size overlap start ((start, start + chunk_size) :: ws).

(** The trimmed text of a window, and the chunks a list of windows emits
    (windows that trim to the empty string emit nothing). *)
Definition trimmed (text : str) (w : Z * Z) : str :=
  strip (slice text w.1 w.2).

Definition emitted (text : str) (ws : list (Z * Z)) : list str :=
  List.filter truthy (map (trimmed text) ws).

Definition windows (text : str) (chunk_size chunk_overlap : Z)
    : option (list (Z * Z)) :=
  windows_from (chunk_fuel text) (len text) chunk_size
    (clamp_overlap chunk_size chunk_overlap) 0.

(** Number of leading whitespace characters. *)
Fixpoint lead (s : str) : nat :=
  match s with
  | [] => O
  | c :: s' => if isspace c then S (lead s') else O
  end.

(** The text with every whitespace character removed. *)
Definition nospace (s : str) : str :=
  List.filter (fun c => negb (isspace c)) s.

(** The part of each window that lies after the end [prev] of the window
    before it. *)
Fixpoint fresh_portions (text : str) (prev : Z) (ws : list (Z * Z))
    : list str :=
  match ws with
  | [] => []
  | (s, e) :: ws' => slice text prev e :: fresh_portions text e ws'
  end.

(** The same on the trimmed windows: of the trimmed text of a window, what
    is left after dropping the characters it shares with the window before
    it (the first [prev - s] characters of the window, of which trimming
    has already removed the leading whitespace). *)
Fixpoint nonoverlapping (text : str) (prev : Z) (ws : list (Z * Z))
    : list str :=
  match ws with
  | [] => []
  | (s, e) :: ws' =>
      drop (Z.to_nat (prev - s) - lead (slice text s e)) (trimmed text (s, e))
      :: nonoverlapping text e ws'
  end.

(** ** Documents, chunks and the document store *)

Inductive pyval : Type :=
  | VStr (s : str)
  | VInt (n : Z).

#[global] Instance pyval_eq_dec : EqDecision pyval.
Proof. solve_decision. Defined.

(** Truth value of a string or an integer. *)
Definition truthy_val (v : pyval) : bool :=
  match v with
  | VStr s => truthy s
  | VInt n => negb (n =? 0)
  end.

(** [documents.Document]; [path] is kept in its [as_posix()] form. *)
Record Document : Type := {
  doc_id : str;
  path : str;
  content : str;
}.

Record Chunk : Type := {
  chunk_id : str;
  chunk_doc_id : str;
  chunk_content : str;
  source_path : str;
  index : Z;
}.

(** [str(n)] for a non-negative [n] *)
Definition str_of_nat (n : nat) : str :=
  lit (DecimalString.NilEmpty.string_of_uint (Nat.to_uint n)).

(** What [doc_store.json] holds once parsed: a dictionary of records, or
    some other JSON value. *)
Inductive json_file : Type :=
  | JDict (docs : gmap str (gmap str str))
  | JOther.

(** [DocStore.add]: [self._docs[document.doc_id] = {"path": ..., "content": ...}] *)
Definition DocStore_add (docs : gmap str (gmap str str)) (document : Document)
    : gmap str (gmap str str) :=
  <[doc_id document :=
      {[ lit "path" := path document; lit "content" := content document ]}]>
    docs.

(** [DocStore.get] *)
Definition DocStore_get (docs : gmap str (gmap str str)) (id : str)
    : option (gmap str str) :=
  docs !! id.

(** [DocStore.count] *)
Definition DocStore_count (docs : gmap str (gmap str str)) : Z :=
  Z.of_nat (size docs).

(** The record [add] stores for a document. *)
Definition doc_record (d : Document) : gmap str str :=
  {[ lit "path" := path d; lit "content" := content d ]}.

(** [_build_chunks]: the chunks of every document, numbered from 0 within
    each document. *)
Definition make_chunk (document : Document) (index : nat) (chunk : str)
    : Chunk :=
  {| chunk_id := doc_id document ++ lit ":" ++ str_of_nat index;
     chunk_doc_id := doc_id document;
     chunk_content := chunk;
     source_path := path document;
     index := Z.of_nat index |}.

Fixpoint build_chunks (documents : list Document)
    (chunk_size chunk_overlap : Z) : outcome (list Chunk) :=
  match documents with
  | [] => Ok []
  | document :: documents' =>
      match chunk_text (content document) chunk_size chunk_overlap with
      | Ok texts =>
          match build_chunks documents' chunk_size chunk_overlap with
          | Ok rest => Ok (imap (make_chunk document) texts ++ rest)
          | Raise e => Raise e
          | Diverge => Diverge
          end
      | Raise e => Raise e
      | Diverge => Diverge
      end
  end.

(** ** The collaborators *)

Definition vector := list Q.

Record Embedder : Type := {
  embed_texts : list str -> outcome (list vector);
}.

(** The keyword arguments of [collection.upsert] and [collection.add]. *)
Record payload : Type := {
  ids : list str;
  documents : list str;
  metadatas : list (gmap str pyval);
  embeddings : list vector;
}.

(** The dictionary [collection.query] returns, as far as [query_index]
    reads it. *)
Record query_result : Type := {
  qr_metadatas : option (list (list (option (gmap str pyval))));
  qr_distances : option (list (list Q));
}.

(** The vector store, as the narrow interface the pipeline uses. *)
Class VectorStore : Type := {
  collection : Type;
  vs_empty : collection;
  vs_has_upsert : bool;
  vs_upsert : collection -> payload -> outcome collection;
  vs_add : collection -> payload -> outcome collection;
  vs_query : collection -> list vector -> Z -> outcome query_result;
  vs_count : collection -> Z;
}.

(** Calls made to the embedding capability and to the data path of the
    vector store, in order. *)
Inductive call : Type :=
  | CallEmbed (texts : list str)
  | CallUpsert (data_dir name : str) (p : payload)
  | CallAdd (data_dir name : str) (p : payload)
  | CallQuery (data_dir name : str) (q : list vector) (n : Z).


(** Summary returned by [build_index]. *)
Record build_summary : Type := {
  s_docs_dir : str;
  s_data_dir : str;
  s_collection : str;
  doc_count : Z;
  chunk_count : Z;
}.

(** One entry of the [results] returned by [query_index]. *)
Record result : Type := {
  r_doc_id : pyval;
  r_source_path : str;
  score : Q;
  r_content : str;
}.

Record query_response : Type := {
  query : str;
  results : list result;
}.

(** ** Aggregation and ranking of the hits (pure part of [query_index]) *)

(** [d < cur] on distances *)
Definition Qltb (x y : Q) : bool :=
  (Qnum x * Zpos (Qden y) <? Qnum y * Zpos (Qden x))%Z.

(** [metadata.get("doc_id") if metadata else None] *)
Definition hit_doc_id (metadata : option (gmap str pyval)) : option pyval :=
  match metadata with
  | Some m => if decide (m = ∅) then None else m !! lit "doc_id"
  | None => None
  end.

(** [best_scores.get(doc_id)] on a dictionary kept in insertion order *)
Fixpoint assoc_get (best : list (pyval * Q)) (k : pyval) : option Q :=
  match best with
  | [] => None
  | (k', d) :: best' => if decide (k' = k) then Some d else assoc_get best' k
  end.

(** [best_scores[doc_id] = distance]: an existing key keeps its place, a
    new key goes last. *)
Fixpoint assoc_set (best : list (pyval * Q)) (k : pyval) (d : Q)
    : list (pyval * Q) :=
  match best with
  | [] => [(k, d)]
  | (k', d') :: best' =>
      if decide (k' = k) then (k, d) :: best'
      else (k', d') :: assoc_set best' k d
  end.

(** One iteration of the loop over [zip(metadatas, distances)]. *)
Definition best_step (best : list (pyval * Q))
    (hit : option (gmap str pyval) * Q) : list (pyval * Q) :=
  match hit_doc_id hit.1 with
  | None => best
  | Some id =>
      if negb (truthy_val id) then best
      else
        match assoc_get best id with
        | None => assoc_set best id hit.2
        | Some current =>
            if Qltb hit.2 current then assoc_set best id hit.2 else best
        end
  end.

Definition best_scores (hits : list (option (gmap str pyval) * Q))
    : list (pyval * Q) :=
  foldl best_step [] hits.

(** [sorted(items, key=lambda item: item[1])]: a stable sort that compares
    keys with [<] only. *)
Fixpoint insert_by_distance (x : pyval * Q) (l : list (pyval * Q))
    : list (pyval * Q) :=
  match l with
  | [] => [x]
  | y :: l' =>
      if Qltb y.2 x.2 then y :: insert_by_distance x l' else x :: y :: l'
  end.

Definition sorted_by_distance (items : list (pyval * Q))
    : list (pyval * Q) :=
  foldr insert_by_distance [] items.

(** [ranked = sorted(best_scores.items(), key=...)[:top_k]] *)
Definition ranked (hits : list (option (gmap str pyval) * Q)) (top_k : Z)
    : list (pyval * Q) :=
  slice (sorted_by_distance (best_scores hits)) 0 top_k.

(** Order of the ranking: by distance, ascending. *)
Definition by_distance : relation (pyval * Q) :=
  fun x y => (x.2 <= y.2)%Q.

(** A document id that is not a string is the key of no record. *)
Definition store_lookup (docs : gmap str (gmap str str)) (id : pyval)
    : option (gmap str str) :=
  match id with
  | VStr s => DocStore_get docs s
  | VInt _ => None
  end.

(** The loop that fills [response]. *)
Fixpoint response (docs : gmap str (gmap str str))
    (ranked : list (pyval * Q)) : list result :=
  match ranked with
  | [] => []
  | (id, distance) :: ranked' =>
      match store_lookup docs id with
      | Some stored =>
          if decide (stored = ∅) then response docs ranked'
          else
            {| r_doc_id := id;
               r_source_path := default (lit "") (stored !! lit "path");
               score := (1 - distance)%Q;
               r_content := default (lit "") (stored !! lit "content") |}
            :: response docs ranked'
      | None => response docs ranked'
      end
  end.

(** Lines 215-239 of [query_index]: from the metadata and distances of the
    hits to the value returned. *)
Definition aggregate_hits (query : str) (docs : gmap str (gmap str str))
    (top_k : Z) (metadatas : list (option (gmap str pyval)))
    (distances : list Q) : query_response :=
  {| query := query;
     results := response docs (ranked (zip metadatas distances) top_k) |}.

(** ** The world the pipeline runs in *)

Section Pipeline.

Context `{VS : VectorStore}.

(** What the operations read and change: whether [chromadb] can be
    imported, what [load_documents] returns for a directory, what
    [get_embedder()] returns, the parsed [doc_store.json] files by path,
    the collections by data directory and name, and the calls made so
    far. *)
Record world : Type := {
  chromadb_installed : bool;
  loader : str -> outcome (list Document);
  default_embedder : outcome Embedder;
  files : gmap str json_file;
  collections : gmap (str * str) collection;
  calls : list call;
}.

Definition set_files (f : gmap str json_file -> gmap str json_file)
    (w : world) : world :=
  {| chromadb_installed := chromadb_installed w;
     loader := loader w;
     default_embedder := default_embedder w;
     files := f (files w);
     collections := collections w;
     calls := calls w |}.

Definition set_collections
    (f : gmap (str * str) collection -> gmap (str * str) collection)
    (w : world) : world :=
  {| chromadb_installed := chromadb_installed w;
     loader := loader w;
     default_embedder := default_embedder w;
     files := files w;
     collections := f (collections w);
     calls := calls w |}.

Definition add_call (c : call) (w : world) : world :=
  {| chromadb_installed := chromadb_installed w;
     loader := loader w;
     default_embedder := default_embedder w;
     files := files w;
     collections := collections w;
     calls := calls w ++ [c] |}.

(** A computation returns, raises or diverges, and leaves a world behind
    in each case. *)
Definition M (A : Type) : Type := world -> outcome A * world.

Definition ret {A} (a : A) : M A := fun w => (Ok a, w).

Definition bind {A B} (m : M A) (k : A -> M B) : M B :=
  fun w =>
    match m w with
    | (Ok a, w') => k a w'
    | (Raise e, w') => (Raise e, w')
    | (Diverge, w') => (Diverge, w')
    end.

Definition lift {A} (o : outcome A) : M A := fun w => (o, w).

Definition modify (f : world -> world) : M unit := fun w => (Ok tt, f w).

Notation "'let!' x ':=' m 'in' k" := (bind m (fun x => k))
  (at level 10, x name, m at level 200, k at level 200).

(** [data_dir / "doc_store.json"] *)
Definition doc_store_path (data_dir : str) : str :=
  data_dir ++ lit "/doc_store.json".

(** [DocStore.load]: an absent file, or one that does not hold a
    dictionary, is an empty store. *)
Definition DocStore_load (path : str) : M (gmap str (gmap str str)) :=
  fun w =>
    (Ok match files w !! path with
        | Some (JDict docs) => docs
        | Some JOther => ∅
        | None => ∅
        end, w).

(** [DocStore.clear] *)
Definition DocStore_clear (path : str) : M (gmap str (gmap str str)) :=
  fun w => (Ok ∅, set_files (delete path) w).

(** [DocStore.save] *)
Definition DocStore_save (path : str) (docs : gmap str (gmap str str))
    : M unit :=
  modify (set_files <[path := JDict docs]>).

(** [_ensure_chroma_client] *)
Definition ensure_chroma_client (data_dir : str) : M unit :=
  fun w =>
    if chromadb_installed w then (Ok tt, w)
    else (Raise (RuntimeError
                   (lit "chromadb is required to store the vector index")), w).

(** [_create_collection]: get or create. *)
Definition create_collection (data_dir name : str) : M unit :=
  modify (fun w =>
    match collections w !! (data_dir, name) with
    | Some _ => w
    | None => set_collections <[(data_dir, name) := vs_empty]> w
    end).

(** [_recreate_collection]: delete, ignoring a failure, then create. *)
Definition recreate_collection (data_dir name : str) : M unit :=
  modify (set_collections <[(data_dir, name) := vs_empty]>).

Definition load_documents (docs_dir : str) : M (list Document) :=
  fun w => (loader w docs_dir, w).

(** [embedder or get_embedder()] *)
Definition resolve_embedder (embedder : option Embedder) : M Embedder :=
  match embedder with
  | Some e => ret e
  | None => fun w => (default_embedder w, w)
  end.

Definition call_embed (e : Embedder) (texts : list str) : M (list vector) :=
  fun w => (embed_texts e texts, add_call (CallEmbed texts) w).

Definition the_collection (data_dir name : str) (w : world) : collection :=
  default vs_empty (collections w !! (data_dir, name)).

(** [collection.upsert] on the payload if the collection has it, else
    [collection.add] *)
Definition upsert_or_add (data_dir name : str) (p : payload) : M unit :=
  fun w =>
    let c := the_collection data_dir name w in
    let w1 :=
      add_call (if vs_has_upsert then CallUpsert data_dir name p
                else CallAdd data_dir name p) w in
    match (if vs_has_upsert then vs_upsert c p else vs_add c p) with
    | Ok c' => (Ok tt, set_collections <[(data_dir, name) := c']> w1)
    | Raise e => (Raise e, w1)
    | Diverge => (Diverge, w1)
    end.

Definition collection_query (data_dir name : str) (q : list vector) (n : Z)
    : M query_result :=
  fun w =>
    (vs_query (the_collection data_dir name w) q n,
     add_call (CallQuery data_dir name q n) w).

Definition chunk_metadata (chunk : Chunk) : gmap str pyval :=
  {[ lit "doc_id" := VStr (chunk_doc_id chunk);
     lit "source_path" := VStr (source_path chunk);
     lit "chunk_index" := VInt (index chunk) ]}.

Definition build_index (docs_dir data_dir collection_name : str)
    (chunk_size chunk_overlap : Z) (embedder : option Embedder)
    (rebuild : bool) : M build_summary :=
  let! documents := load_documents docs_dir in
  let! _ := ensure_chroma_client data_dir in
  let! _ := (if rebuild then recreate_collection data_dir collection_name
        else create_collection data_dir collection_name) in
  let! docs := (if rebuild then DocStore_clear (doc_store_path data_dir)
           else DocStore_load (doc_store_path data_dir)) in
  let docs := foldl DocStore_add docs documents in
  let! _ := DocStore_save (doc_store_path data_dir) docs in
  let! chunks := lift (build_chunks documents chunk_size chunk_overlap) in
  if negb (truthy chunks) then
    ret {| s_docs_dir := docs_dir;
           s_data_dir := data_dir;
           s_collection := collection_name;
           doc_count := len documents;
           chunk_count := 0 |}
  else
    let! embedder := resolve_embedder embedder in
    let! embeddings := call_embed embedder (map chunk_content chunks) in
    let p := {| ids := map chunk_id chunks;
                documents := map chunk_content chunks;
                metadatas := map chunk_metadata chunks;
                embeddings := embeddings |} in
    let! _ := upsert_or_add data_dir collection_name p in
    ret {| s_docs_dir := docs_dir;
           s_data_dir := data_dir;
           s_collection := collection_name;
           doc_count := len documents;
           chunk_count := len chunks |}.

(** [results.get(key, [[]])[0] or []] *)
Definition first_batch {A} (o : option (list (list A))) : outcome (list A) :=
  match default [[]] o with
  | [] => Raise (IndexError (lit "list index out of range"))
  | x :: _ => Ok x
  end.

Definition query_index (query data_dir collection_name : str) (top_k : Z)
    (embedder : option Embedder) : M query_response :=
  let! _ := ensure_chroma_client data_dir in
  let! _ := create_collection data_dir collection_name in
  let! docs := DocStore_load (doc_store_path data_dir) in
  if DocStore_count docs =? 0 then
    ret {| query := query; results := [] |}
  else
    let! embedder := resolve_embedder embedder in
    let! query_embedding := call_embed embedder [query] in
    let! qr := collection_query data_dir collection_name query_embedding top_k in
    let! metadatas := lift (first_batch (qr_metadatas qr)) in
    let! distances := lift (first_batch (qr_distances qr)) in
    ret (aggregate_hits query docs top_k metadatas distances).

Record status : Type := {
  st_data_dir : str;
  st_collection : str;
  st_doc_count : Z;
  st_chunk_count : Z;
}.

Definition get_status (data_dir collection_name : str) : M status :=
  let! docs := DocStore_load (doc_store_path data_dir) in
  let! _ := ensure_chroma_client data_dir in
  let! _ := create_collection data_dir collection_name in
  fun w =>
    (Ok {| st_data_dir := data_dir;
           st_collection := collection_name;
           st_doc_count := DocStore_count docs;
           st_chunk_count := vs_count (the_collection data_dir collection_name w) |},
     w).

(** The documents a data directory's store holds on disk. *)
Definition stored_docs (data_dir : str) (w : world)
    : gmap str (gmap str str) :=
  match files w !! doc_store_path data_dir with
  | Some (JDict docs) => docs
  | Some JOther => ∅
  | None => ∅
  end.

End Pipeline.

(** ** Loading documents ([documents.py]) *)

(** One path of [sorted(docs_dir.rglob("*"))] as [load_documents] sees it:
    its [as_posix()] form, its form relative to the root, [is_file()],
    [suffix.lower()], what reading it as text returns, and the texts of the
    paragraphs [python-docx] finds in it. *)
Record dir_entry : Type := {
  de_path : str;
  de_rel_path : str;
  de_is_file : bool;
  de_suffix : str;
  de_text : outcome str;
  de_paragraphs : outcome (list str);
}.

Definition SUPPORTED_SUFFIXES : list str :=
  [lit ".txt"; lit ".md"; lit ".docx"].

(** [sep.join(lines)] *)
Fixpoint join (sep : str) (lines : list str) : str :=
  match lines with
  | [] => []
  | [l] => l
  | l :: lines' => l ++ sep ++ join sep lines'
  end.

Section Loader.

(** [hashlib.sha256(s.encode("utf-8")).hexdigest()], and whether [docx]
    can be imported. *)
Variable sha256_hex : str -> str.
Variable docx_installed : bool.

Definition doc_id_for (e : dir_entry) : str := sha256_hex (de_rel_path e).

Definition read_text_file (e : dir_entry) : outcome str := de_text e.

Definition read_docx_file (e : dir_entry) : outcome str :=
  if docx_installed then
    match de_paragraphs e with
    | Ok paragraphs => Ok (join [10%N] (List.filter truthy paragraphs))
    | Raise err => Raise err
    | Diverge => Diverge
    end
  else Raise (RuntimeError (lit "python-docx is required to read .docx files")).

Definition read_document (e : dir_entry) : outcome str :=
  let suffix := de_suffix e in
  if bool_decide (suffix ∈ [lit ".txt"; lit ".md"]) then read_text_file e
  else if bool_decide (suffix = lit ".docx") then read_docx_file e
  else Raise (ValueError (lit "Unsupported file type: " ++ suffix)).

(** The loop of [load_documents] over the sorted paths. *)
Fixpoint load_loop (entries : list dir_entry) (documents : list Document)
    : outcome (list Document) :=
  match entries with
  | [] => Ok documents
  | e :: entries' =>
      if negb (de_is_file e) then load_loop entries' documents
      else if negb (bool_decide (de_suffix e ∈ SUPPORTED_SUFFIXES)) then
        load_loop entries' documents
      else
        match read_document e with
        | Ok text =>
            if negb (truthy (strip text)) then load_loop entries' documents
            else
              load_loop entries'
                (documents ++ [{| doc_id := doc_id_for e;
                                  path := de_path e;
                                  content := text |}])
        | Raise err => Raise err
        | Diverge => Diverge
        end
  end.

(** What one path contributes to the documents loaded. *)
Definition loaded_from (e : dir_entry) : option Document :=
  if de_is_file e && bool_decide (de_suffix e ∈ SUPPORTED_SUFFIXES) then
    match read_document e with
    | Ok text =>
        if truthy (strip text) then
          Some {| doc_id := doc_id_for e; path := de_path e; content := text |}
        else None
    | _ => None
    end
  else None.

(** [load_documents]: [None] stands for a directory that does not
    exist. *)
Definition load_documents_of (listing : option (list dir_entry))
    : outcome (list Document) :=
  match listing with
  | None => Ok []
  | Some entries => load_loop entries []
  end.

End Loader.

(** ** Configuration, embedder selection and the tools
       ([config.py], [embeddings.py], [server.py]) *)

Record ServerConfig : Type := {
  cfg_docs_dir : str;
  cfg_data_dir : str;
  cfg_collection_name : str;
  cfg_chunk_size : Z;
  cfg_chunk_overlap : Z;
  cfg_top_k : Z;
  cfg_embedding_backend : str;
}.

(** [a or b] on strings, [a] possibly [None] *)
Definition str_or (a : option str) (b : str) : str :=
  match a with
  | Some s => if truthy s then s else b
  | None => b
  end.

Section Server.

Context `{VS : VectorStore}.

(** What the library gives: [str.lower], [int] on a string ([None] for a
    [ValueError]), [Path(s).as_posix()], the outcome of constructing a
    [SentenceTransformerEmbedder], and the [SimpleKeywordEmbedder]. *)
Variable str_lower : str -> str.
Variable int_of_str : str -> option Z.
Variable as_posix : str -> str.
Variable sentence_transformer_embedder : outcome Embedder.
Variable simple_keyword_embedder : Embedder.

(** [os.getenv(name, default)] *)
Definition getenv (env : gmap str str) (name default_value : str) : str :=
  default default_value (env !! name).

Definition env_int (env : gmap str str) (name : str) (default_value : Z) : Z :=
  match env !! name with
  | None => default_value
  | Some value =>
      match int_of_str value with
      | Some n => n
      | None => default_value
      end
  end.

Definition load_config (env : gmap str str) : ServerConfig :=
  {| cfg_docs_dir := as_posix (getenv env (lit "MCP_DOCS_DIR") (lit "docs"));
     cfg_data_dir := as_posix (getenv env (lit "MCP_DATA_DIR") (lit "data"));
     cfg_collection_name :=
       getenv env (lit "MCP_COLLECTION_NAME") (lit "rag_docs");
     cfg_chunk_size := env_int env (lit "MCP_CHUNK_SIZE") 1200;
     cfg_chunk_overlap := env_int env (lit "MCP_CHUNK_OVERLAP") 200;
     cfg_top_k := env_int env (lit "MCP_TOP_K") 3;
     cfg_embedding_backend :=
       getenv env (lit "MCP_EMBEDDING_BACKEND") (lit "sentence-transformer") |}.

Definition get_embedder (env : gmap str str) (backend : option str)
    : outcome Embedder :=
  let backend_name :=
    str_lower
      (str_or backend
         (getenv env (lit "MCP_EMBEDDING_BACKEND")
            (lit "sentence-transformer"))) in
  if bool_decide
       (backend_name ∈ [lit "sentence-transformer"; lit "sentence"; lit "st"])
  then sentence_transformer_embedder
  else if bool_decide (backend_name ∈ [lit "simple"; lit "test"]) then
    Ok simple_keyword_embedder
  else Raise (ValueError (lit "Unknown embedding backend: " ++ backend_name)).

(** [Path(s) if s else fallback] *)
Definition path_or (s : option str) (fallback : str) : str :=
  match s with
  | Some s' => if truthy s' then as_posix s' else fallback
  | None => fallback
  end.

Definition build_index_tool (env : gmap str str)
    (docs_dir data_dir collection_name : option str)
    (chunk_size chunk_overlap : option Z) (embedding_backend : option str)
    (rebuild : bool) : M build_summary :=
  let config := load_config env in
  bind
    (lift (get_embedder env
             (Some (str_or embedding_backend (cfg_embedding_backend config)))))
    (fun embedder =>
       build_index
         (path_or docs_dir (cfg_docs_dir config))
         (path_or data_dir (cfg_data_dir config))
         (str_or collection_name (cfg_collection_name config))
         (default (cfg_chunk_size config) chunk_size)
         (default (cfg_chunk_overlap config) chunk_overlap)
         (Some embedder) rebuild).

Definition refresh_index_tool (env : gmap str str) : M build_summary :=
  let config := load_config env in
  bind
    (lift (get_embedder env (Some (cfg_embedding_backend config))))
    (fun embedder =>
       build_index (cfg_docs_dir config) (cfg_data_dir config)
         (cfg_collection_name config) (cfg_chunk_size config)
         (cfg_chunk_overlap config) (Some embedder) true).

Definition query_tool (env : gmap str str) (query : str)
    (data_dir collection_name : option str) (top_k : option Z)
    (embedding_backend : option str) : M query_response :=
  let config := load_config env in
  bind
    (lift (get_embedder env
             (Some (str_or embedding_backend (cfg_embedding_backend config)))))
    (fun embedder =>
       query_index query
         (path_or data_dir (cfg_data_dir config))
         (str_or collection_name (cfg_collection_name config))
         (default (cfg_top_k config) top_k)
         (Some embedder)).

Definition status_tool (env : gmap str str)
    (data_dir collection_name : option str) : M status :=
  let config := load_config env in
  get_status (path_or data_dir (cfg_data_dir config))
    (str_or collection_name (cfg_collection_name config)).

End Server.

(** ** Stand-ins for the collaborators *)

(** An in-memory vector store: entries in insertion order, squared
    Euclidean distance, hits in stored order. *)
Record entry : Type := {
  e_id : str;
  e_document : str;
  e_metadata : gmap str pyval;
  e_embedding : vector;
}.

Fixpoint payload_entries (ids docs : list str)
    (metas : list (gmap str pyval)) (embs : list vector) : list entry :=
  match ids, docs, metas, embs with
  | i :: ids', d :: docs', m :: metas', v :: embs' =>
      {| e_id := i; e_document := d; e_metadata := m; e_embedding := v |}
      :: payload_entries ids' docs' metas' embs'
  | _, _, _, _ => []
  end.

Fixpoint put_entry (e : entry) (c : list entry) : list entry :=
  match c with
  | [] => [e]
  | e' :: c' =>
      if decide (e_id e' = e_id e) then e :: c' else e' :: put_entry e c'
  end.

Fixpoint sq_distance (u v : vector) : Q :=
  match u, v with
  | x :: u', y :: v' => ((x - y) * (x - y) + sq_distance u' v')%Q
  | _, _ => 0%Q
  end.

Definition memory_query (c : list entry) (q : list vector) (n : Z)
    : outcome query_result :=
  match q with
  | [] => Raise (BackendError (lit "no query embedding"))
  | v :: _ =>
      let hits := take (Z.to_nat n) c in
      Ok {| qr_metadatas := Some [map (fun e => Some (e_metadata e)) hits];
            qr_distances :=
              Some [map (fun e => sq_distance v (e_embedding e)) hits] |}
  end.

Definition memory_store : VectorStore :=
  {| collection := list entry;
     vs_empty := [];
     vs_has_upsert := true;
     vs_upsert c p :=
       Ok (foldl (fun c e => put_entry e c) c
             (payload_entries (ids p) (documents p) (metadatas p)
                (embeddings p)));
     vs_add c p :=
       Ok (c ++ payload_entries (ids p) (documents p) (metadatas p)
                  (embeddings p));
     vs_query := memory_query;
     vs_count c := len c |}.

(** An embedder that maps a text to its length, and one that fails. *)
Definition length_embedder : Embedder :=
  {| embed_texts texts := Ok (map (fun t => [inject_Z (len t)]) texts) |}.


Definition docA : Document :=
  {| doc_id := lit "a1"; path := lit "docs/a.txt";
     content := lit "Alpha topic and shared term" |}.
Definition docB : Document :=
  {| doc_id := lit "b2"; path := lit "docs/b.txt";
     content := lit "Beta topic only" |}.
Definition docC : Document :=
  {| doc_id := lit "c3"; path := lit "docs/c.txt";
     content := lit "Gamma" |}.

(** A data directory whose store holds A and B, and a documents directory
    that now holds A and C. *)
Definition world_AB : @world memory_store :=
  {| chromadb_installed := true;
     loader := fun _ => Ok [docA; docC];
     default_embedder := Ok length_embedder;
     files := {[ doc_store_path (lit "data")
                 := JDict (foldl DocStore_add ∅ [docA; docB]) ]};
     collections := ∅;
     calls := [] |}.



(** Three hits: two chunks of A, one of B. *)
Definition hits_metadatas : list (option (gmap str pyval)) :=
  [Some {[lit "doc_id" := VStr (doc_id docA)]};
   Some {[lit "doc_id" := VStr (doc_id docA)]};
   Some {[lit "doc_id" := VStr (doc_id docB)]}].

Definition hits_distances : list Q := [3 # 10; 1 # 10; 2 # 10]%Q.





(** A documents directory: a text file, a sub-directory, an image, a blank
    markdown file and a Word file; and the same with a text file that
    cannot be read. *)
Definition entry_txt : dir_entry :=
  {| de_path := lit "docs/a.txt"; de_rel_path := lit "a.txt";
     de_is_file := true; de_suffix := lit ".txt";
     de_text := Ok (lit "Alpha topic and shared term");
     de_paragraphs := Raise (BackendError (lit "not a Word file")) |}.

Definition entry_dir : dir_entry :=
  {| de_path := lit "docs/sub"; de_rel_path := lit "sub";
     de_is_file := false; de_suffix := lit "";
     de_text := Raise (BackendError (lit "is a directory"));
     de_paragraphs := Raise (BackendError (lit "is a directory")) |}.

Definition entry_png : dir_entry :=
  {| de_path := lit "docs/b.png"; de_rel_path := lit "b.png";
     de_is_file := true; de_suffix := lit ".png";
     de_text := Ok (lit "PNG");
     de_paragraphs := Raise (BackendError (lit "not a Word file")) |}.

Definition entry_blank : dir_entry :=
  {| de_path := lit "docs/c.md"; de_rel_path := lit "c.md";
     de_is_file := true; de_suffix := lit ".md";
     de_text := Ok (lit "   ");
     de_paragraphs := Raise (BackendError (lit "not a Word file")) |}.

Definition entry_docx : dir_entry :=
  {| de_path := lit "docs/d.docx"; de_rel_path := lit "d.docx";
     de_is_file := true; de_suffix := lit ".docx";
     de_text := Ok (lit "PK");
     de_paragraphs := Ok [lit "Beta"; lit ""; lit "content"] |}.


Definition listing_docs : list dir_entry :=
  [entry_txt; entry_dir; entry_png; entry_blank; entry_docx].

Definition loaded_docs : list Document :=
  [{| doc_id := lit "a.txt"; path := lit "docs/a.txt";
      content := lit "Alpha topic and shared term" |};
   {| doc_id := lit "d.docx"; path := lit "docs/d.docx";
      content := lit "Beta" ++ [10%N] ++ lit "content" |}].

(** An environment that names an embedding backend that does not exist. *)
Definition env_bogus : gmap str str :=
  {[ lit "MCP_EMBEDDING_BACKEND" := lit "bogus" ]}.

Definition no_sentence_transformer : outcome Embedder :=
  Raise (RuntimeError
           (lit "sentence-transformers is required for the default embedding backend")).

(** * Properties *)

(** ** Worked examples of the chunker *)

Example chunk_text_ex1 :
  chunk_text (lit "a  bcd") 3 1 = Ok [lit "a"; lit "bc"; lit "cd"].
Proof. reflexivity. Qed.

Example chunk_text_ex2 :
  chunk_text (lit " hello world ") 100 5 = Ok [lit "hello world"].
Proof. reflexivity. Qed.

Example chunk_text_ex3 :
  chunk_text (lit "ab      cd") 3 0 = Ok [lit "ab"; lit "c"; lit "d"].
Proof. reflexivity. Qed.

Example nonoverlapping_ex1 :
  windows (lit "a  bcd") 3 1 = Some [(0, 3); (2, 5); (4, 6)] /\
  nonoverlapping (lit "a  bcd") 0 [(0, 3); (2, 5); (4, 6)]
  = [lit "a"; lit "bc"; lit "d"].
Proof. split; reflexivity. Qed.

(** ** Trimming and slicing *)

Section Strings.

Implicit Types s t : str.

Lemma lstrip_drop s : lstrip s = drop (lead s) s.
Proof.
  induction s as [|c s IH]; simpl; [reflexivity|].
  destruct (isspace c); simpl; auto.
Qed.

Lemma lead_le s : (lead s <= length s)%nat.
Proof.
  induction s as [|c s IH]; simpl; [lia|].
  destruct (isspace c); lia.
Qed.

Lemma lstrip_length s : (length (lstrip s) <= length s)%nat.
Proof. rewrite lstrip_drop, length_drop. lia. Qed.

Lemma rstrip_length s : (length (rstrip s) <= length s)%nat.
Proof.
  unfold rstrip. rewrite length_rev.
  etransitivity; [apply lstrip_length|]. rewrite length_rev. lia.
Qed.

Lemma strip_length s : (length (strip s) <= length s)%nat.
Proof.
  unfold strip. etransitivity; [apply rstrip_length|apply lstrip_length].
Qed.

Lemma nospace_app s t : nospace (s ++ t) = nospace s ++ nospace t.
Proof. apply List.filter_app. Qed.

Lemma nospace_rev s : nospace (rev s) = rev (nospace s).
Proof.
  induction s as [|c s IH]; simpl; [reflexivity|].
  rewrite nospace_app, IH. simpl.
  destruct (isspace c); simpl; [apply app_nil_r|reflexivity].
Qed.

Lemma nospace_lstrip s : nospace (lstrip s) = nospace s.
Proof.
  induction s as [|c s IH]; simpl; [reflexivity|].
  destruct (isspace c) eqn:E; simpl; rewrite ?E; simpl; auto.
Qed.

Lemma nospace_rstrip s : nospace (rstrip s) = nospace s.
Proof.
  unfold rstrip. rewrite nospace_rev, nospace_lstrip, nospace_rev.
  apply rev_involutive.
Qed.

Lemma nospace_strip s : nospace (strip s) = nospace s.
Proof. unfold strip. rewrite nospace_rstrip. apply nospace_lstrip. Qed.

(** A string of whitespace only trims to nothing. *)
Lemma lstrip_blank s : nospace s = [] -> lstrip s = [].
Proof.
  induction s as [|c s IH]; simpl; [reflexivity|].
  destruct (isspace c); simpl; [auto|discriminate].
Qed.

Lemma lead_blank s : nospace s = [] -> lead s = length s.
Proof.
  induction s as [|c s IH]; simpl; [reflexivity|].
  destruct (isspace c); simpl; [auto|discriminate].
Qed.

Lemma lstrip_app s t :
  lstrip (s ++ t) = if truthy (nospace s) then lstrip s ++ t else lstrip t.
Proof.
  induction s as [|c s IH]; simpl; [reflexivity|].
  destruct (isspace c); simpl; auto.
Qed.

Lemma lead_app s t :
  lead (s ++ t)
  = if truthy (nospace s) then lead s else (length s + lead t)%nat.
Proof.
  induction s as [|c s IH]; simpl; [reflexivity|].
  destruct (isspace c); simpl; [|reflexivity].
  rewrite IH. destruct (truthy (nospace s)); reflexivity.
Qed.

Lemma truthy_rev {A} (l : list A) : truthy (rev l) = truthy l.
Proof.
  destruct l as [|a l]; [reflexivity|]. simpl.
  destruct (rev l); reflexivity.
Qed.

Lemma rstrip_app s t :
  rstrip (s ++ t) = if truthy (nospace t) then s ++ rstrip t else rstrip s.
Proof.
  unfold rstrip. rewrite rev_app_distr, lstrip_app, nospace_rev, truthy_rev.
  destruct (truthy (nospace t)); [|reflexivity].
  rewrite rev_app_distr, rev_involutive. reflexivity.
Qed.

Lemma strip_blank s : nospace s = [] -> strip s = [].
Proof. intros H. unfold strip. rewrite (lstrip_blank s H). reflexivity. Qed.

Lemma truthy_false {A} (l : list A) : truthy l = false -> l = [].
Proof. destruct l; [reflexivity|discriminate]. Qed.

Lemma truthy_true {A} (l : list A) : truthy l = true -> l <> [].
Proof. destruct l; [discriminate|congruence]. Qed.

(** Dropping from the trimmed text of [s ++ t] what [s] contributed
    keeps every non-whitespace character of [t], in order. *)
Lemma nospace_drop_strip_app s t :
  nospace (drop (length s - lead (s ++ t)) (strip (s ++ t))) = nospace t.
Proof.
  rewrite lead_app. unfold strip. rewrite lstrip_app.
  destruct (truthy (nospace s)) eqn:Hs.
  - rewrite rstrip_app.
    assert (Hl : length (lstrip s) = (length s - lead s)%nat)
      by (rewrite lstrip_drop, length_drop; reflexivity).
    destruct (truthy (nospace t)) eqn:Ht.
    + rewrite <- Hl, drop_app_length. apply nospace_rstrip.
    + rewrite (truthy_false _ Ht), drop_ge; [reflexivity|].
      rewrite <- Hl. apply rstrip_length.
  - replace (length s - (length s + lead t))%nat with O by lia.
    rewrite drop_0. apply (nospace_strip t).
Qed.

End Strings.

Section Slices.

Context {A : Type}.
Implicit Types l : list A.

Lemma adjust_index_in_range n i : 0 <= i <= n -> adjust_index n i = i.
Proof.
  intros H. unfold adjust_index.
  destruct (Z.ltb_spec i 0); lia.
Qed.

Lemma slice_in_range l a b :
  0 <= a <= b -> b <= len l ->
  slice l a b = take (Z.to_nat (b - a)) (drop (Z.to_nat a) l).
Proof.
  intros Ha Hb. unfold slice.
  rewrite !adjust_index_in_range by lia. reflexivity.
Qed.

Lemma slice_length l a b :
  0 <= a <= b -> b <= len l -> len (slice l a b) = b - a.
Proof.
  intros Ha Hb. rewrite slice_in_range by assumption.
  unfold len in *. rewrite length_take, length_drop. lia.
Qed.

Lemma slice_all l : slice l 0 (len l) = l.
Proof.
  rewrite slice_in_range by (unfold len; lia).
  simpl. rewrite drop_0. apply take_ge. unfold len. lia.
Qed.

(** [l[a:c] = l[a:b] + l[b:c]] *)
Lemma slice_split l a b c :
  0 <= a <= b -> b <= c -> c <= len l ->
  slice l a c = slice l a b ++ slice l b c.
Proof.
  intros Ha Hb Hc. rewrite !slice_in_range by lia.
  replace (Z.to_nat (c - a)) with (Z.to_nat (b - a) + Z.to_nat (c - b))%nat
    by lia.
  rewrite <- take_take_drop, drop_drop.
  do 3 f_equal. lia.
Qed.

Lemma slice_to_end l a :
  0 <= a <= len l -> slice l a (len l) = drop (Z.to_nat a) l.
Proof.
  intros Ha. rewrite slice_in_range by lia.
  apply take_ge. rewrite length_drop. unfold len in *. lia.
Qed.

End Slices.

(** ** The scan of [chunk_text] *)

Lemma emitted_cons text w ws :
  emitted text (w :: ws)
  = if truthy (trimmed text w) then trimmed text w :: emitted text ws
    else emitted text ws.
Proof. reflexivity. Qed.

Lemma chunk_loop_windows fuel text cs ov : forall start chunks,
  chunk_loop fuel text cs ov start chunks
  = (fun ws => chunks ++ emitted text ws)
      <$> windows_from fuel (len text) cs ov start.
Proof.
  induction fuel as [|fuel IH]; intros start chunks; simpl; [reflexivity|].
  destruct (start <? len text); simpl; [|by rewrite app_nil_r].
  set (e := Z.min (start + cs) (len text)).
  destruct (e >=? len text); simpl.
  - rewrite emitted_cons. unfold emitted, trimmed. simpl.
    destruct (truthy _); simpl; [reflexivity|by rewrite app_nil_r].
  - rewrite IH.
    destruct (windows_from fuel (len text) cs ov (e - ov)) as [ws|]; simpl;
      [|reflexivity].
    rewrite emitted_cons. unfold trimmed at 1 2. simpl.
    destruct (truthy _); [|reflexivity].
    by rewrite <- app_assoc.
Qed.

Section Scan.

Variables length cs ov : Z.

Lemma windows_from_scan fuel : forall start ws,
  windows_from fuel length cs ov start = Some ws ->
  scan length cs ov start ws.
Proof.
  induction fuel as [|fuel IH]; intros start ws; simpl; [discriminate|].
  destruct (Z.ltb_spec start length) as [Hlt|Hge].
  - destruct (Z.geb_spec (Z.min (start + cs) length) length) as [Hend|Hend].
    + intros [= <-]. replace (Z.min (start + cs) length) with length by lia.
      apply scan_last; lia.
    + destruct (windows_from fuel length cs ov _) as [ws'|] eqn:E;
        [|discriminate].
      intros [= <-].
      replace (Z.min (start + cs) length) with (start + cs) in * by lia.
      apply scan_step; [lia|lia|]. by apply IH.
  - intros [= <-]. by apply scan_done.
Qed.


Hypothesis overlap_clamped : 0 <= ov < cs.

(** Every step moves the start forward, so the scan ends within
    [length - start] steps. *)
Lemma windows_from_terminates fuel : forall start,
  (Z.to_nat (length - start) < fuel)%nat ->
  is_Some (windows_from fuel length cs ov start).
Proof.
  induction fuel as [|fuel IH]; intros start Hfuel; simpl; [lia|].
  destruct (Z.ltb_spec start length) as [Hlt|Hge]; [|by eexists].
  destruct (Z.geb_spec (Z.min (start + cs) length) length) as [Hend|Hend];
    [by eexists|].
  destruct (IH (Z.min (start + cs) length - ov)) as [ws ->]; [lia|].
  by eexists.
Qed.

Lemma scan_window start ws :
  scan length cs ov start ws ->
  forall i s e, ws !! i = Some (s, e) ->
    start <= s < length /\ e = Z.min (s + cs) length.
Proof.
  induction 1 as [start H|start H1 H2|start ws H1 H2 Hs IH];
    intros i s e Hi.
  - done.
  - destruct i; [|done]. injection Hi as <- <-. lia.
  - destruct i as [|i]; [injection Hi as <- <-; lia|].
    destruct (IH i s e Hi). lia.
Qed.





End Scan.

Section Coverage.

Variable text : str.
Variables cs ov : Z.
Hypothesis overlap_clamped : 0 <= ov < cs.

(** The parts of the windows that lie past the previous window tile the
    text from [prev] on. *)
Lemma scan_fresh_portions start ws :
  scan (len text) cs ov start ws ->
  forall prev, 0 <= start <= prev -> prev < start + cs -> prev <= len text ->
  concat (fresh_portions text prev ws) = drop (Z.to_nat prev) text.
Proof.
  induction 1 as [start H|start H1 H2|start ws H1 H2 Hs IH];
    intros prev Hp1 Hp2 Hp3; simpl.
  - symmetry. apply drop_ge. unfold len in *. lia.
  - rewrite app_nil_r. apply slice_to_end. lia.
  - rewrite IH by lia.
    rewrite slice_in_range by lia.
    rewrite <- (take_drop (Z.to_nat (start + cs - prev))
                  (drop (Z.to_nat prev) text)) at 2.
    rewrite drop_drop. do 2 f_equal. lia.
Qed.

(** The same for the trimmed windows, up to whitespace. *)
Lemma scan_nonoverlapping start ws :
  scan (len text) cs ov start ws ->
  forall prev, 0 <= start <= prev -> prev < start + cs -> prev <= len text ->
  nospace (concat (nonoverlapping text prev ws))
  = nospace (drop (Z.to_nat prev) text).
Proof.
  assert (Hone : forall s e prev,
    0 <= s <= prev -> prev <= e -> e <= len text ->
    nospace (drop (Z.to_nat (prev - s) - lead (slice text s e))
               (trimmed text (s, e)))
    = nospace (slice text prev e)).
  { intros s e prev H1 H2 H3. unfold trimmed. simpl.
    rewrite (slice_split text s prev e) by lia.
    replace (Z.to_nat (prev - s)) with (length (slice text s prev)).
    - apply nospace_drop_strip_app.
    - pose proof (slice_length text s prev) as Hl.
      unfold len in Hl at 2. lia. }
  induction 1 as [start H|start H1 H2|start ws H1 H2 Hs IH];
    intros prev Hp1 Hp2 Hp3; simpl.
  - rewrite drop_ge; [reflexivity|]. unfold len in *. lia.
  - rewrite app_nil_r, Hone by lia. f_equal. apply slice_to_end. lia.
  - rewrite nospace_app, Hone, IH by lia.
    rewrite <- nospace_app. f_equal.
    rewrite slice_in_range by lia.
    rewrite <- (take_drop (Z.to_nat (start + cs - prev))
                  (drop (Z.to_nat prev) text)) at 2.
    rewrite drop_drop. do 2 f_equal. lia.
Qed.

End Coverage.

Lemma clamp_overlap_range cs co :
  0 < cs -> 0 <= clamp_overlap cs co <= cs - 1.
Proof. unfold clamp_overlap. lia. Qed.

Lemma clamp_overlap_id cs co :
  0 <= co < cs -> clamp_overlap cs co = co.
Proof. unfold clamp_overlap. lia. Qed.

Lemma windows_is_Some text cs co :
  0 < cs -> is_Some (windows text cs co).
Proof.
  intros Hcs. apply windows_from_terminates.
  - pose proof (clamp_overlap_range cs co Hcs). lia.
  - unfold chunk_fuel, len. lia.
Qed.

(** With a positive chunk size, [chunk_text] returns the chunks its
    windows emit. *)
Lemma chunk_text_windows text cs co :
  0 < cs ->
  exists ws, windows text cs co = Some ws /\
             chunk_text text cs co = Ok (emitted text ws).
Proof.
  intros Hcs. destruct (windows_is_Some text cs co Hcs) as [ws Hws].
  exists ws. split; [done|]. unfold chunk_text.
  destruct (Z.leb_spec cs 0); [lia|].
  rewrite chunk_loop_windows. unfold windows in Hws. by rewrite Hws.
Qed.

Lemma emitted_nonempty text ws : Forall (fun c => c <> []) (emitted text ws).
Proof.
  apply List.Forall_forall. intros c Hc.
  apply List.filter_In in Hc as [_ Hc]. by apply truthy_true.
Qed.

Lemma emitted_length_le text cs ws :
  (forall i s e, ws !! i = Some (s, e) ->
     0 <= s <= len text /\ e = Z.min (s + cs) (len text)) ->
  0 < cs ->
  Forall (fun c => len c <= cs) (emitted text ws).
Proof.
  intros Hws Hcs. apply List.Forall_forall. intros c Hc.
  apply List.filter_In in Hc as [Hc _].
  apply List.in_map_iff in Hc as [[s e] [<- Hin]].
  apply list_elem_of_In, list_elem_of_lookup in Hin as [i Hi].
  destruct (Hws i s e Hi) as [Hs He]. unfold trimmed. simpl.
  pose proof (strip_length (slice text s e)) as Hstrip.
  pose proof (slice_length text s e). unfold len in *. lia.
Qed.

Lemma nonoverlapping_lookup text ws : forall prev i p,
  nonoverlapping text prev ws !! i = Some p ->
  exists w k, ws !! i = Some w /\ p = drop k (trimmed text w).
Proof.
  induction ws as [|[s e] ws IH]; intros prev i p Hp; [done|].
  destruct i as [|i]; simpl in Hp.
  - injection Hp as <-. by eexists (s, e), _.
  - by apply IH in Hp.
Qed.

Lemma windows_scan text cs co ws :
  windows text cs co = Some ws ->
  scan (len text) cs (clamp_overlap cs co) 0 ws.
Proof. apply windows_from_scan. Qed.

(** ** The chunker: specified properties *)

(** C8.  [chunk_text] raises exactly when [chunk_size <= 0], and what it
    raises is the [ValueError] "chunk_size must be positive" (the
    specification's [InvalidConfiguration]); for a positive chunk size it
    returns a list of chunks, whatever the text and the overlap. *)
Theorem chunk_text_raises_iff_nonpositive_size (text : str) (cs co : Z) :
  (chunk_text text cs co
   = Raise (ValueError (lit "chunk_size must be positive")) <-> cs <= 0) /\
  ((exists e, chunk_text text cs co = Raise e) <-> cs <= 0) /\
  ((exists chunks, chunk_text text cs co = Ok chunks) <-> 0 < cs).
Proof.
  destruct (Z.le_gt_cases cs 0) as [Hle|Hgt].
  - assert (E : chunk_text text cs co
                = Raise (ValueError (lit "chunk_size must be positive"))).
    { unfold chunk_text. destruct (Z.leb_spec cs 0); [done|lia]. }
    rewrite E. repeat split; try done; try lia.
    + by eexists.
    + by intros [? ?].
  - destruct (chunk_text_windows text cs co) as (ws & _ & E); [lia|].
    rewrite E. repeat split; try done; try lia.
    + by intros [? ?].
    + by eexists.
Qed.

(** C9.  A text no longer than [chunk_size] gives exactly one chunk, the
    trimmed text, or no chunk when the text trims to the empty string; the
    empty text gives no chunk. *)
Theorem chunk_text_short_text (text : str) (cs co : Z) :
  0 < cs -> len text <= cs ->
  chunk_text text cs co
  = Ok (if truthy (strip text) then [strip text] else []) /\
  chunk_text [] cs co = Ok [].
Proof.
  intros Hcs Hlen.
  assert (Hempty : chunk_text [] cs co = Ok []).
  { unfold chunk_text. destruct (Z.leb_spec cs 0); [lia|reflexivity]. }
  split; [|done].
  destruct text as [|c text]; [done|].
  unfold chunk_text. destruct (Z.leb_spec cs 0); [lia|].
  unfold chunk_fuel, chunk_loop. fold chunk_loop.
  set (t := c :: text) in *.
  assert (0 < len t) by (unfold len, t; simpl; lia).
  destruct (Z.ltb_spec 0 (len t)); [|lia].
  replace (Z.min (0 + cs) (len t)) with (len t) by lia.
  destruct (Z.geb_spec (len t) (len t)); [|lia].
  rewrite slice_all. by destruct (strip t).
Qed.

(** C10.  With a positive chunk size [chunk_text] returns, and no chunk it
    returns is longer than [chunk_size]. *)
Theorem chunk_text_chunk_length_bound (text : str) (cs co : Z) :
  0 < cs ->
  exists chunks,
    chunk_text text cs co = Ok chunks /\
    Forall (fun c => len c <= cs) chunks.
Proof.
  intros Hcs. destruct (chunk_text_windows text cs co Hcs) as (ws & Hws & E).
  exists (emitted text ws). split; [done|].
  apply emitted_length_le; [|done].
  intros i s e Hi.
  pose proof (clamp_overlap_range cs co Hcs) as Hov.
  assert (Hov' : 0 <= clamp_overlap cs co < cs) by lia.
  destruct (scan_window _ _ _ Hov' _ _ (windows_scan _ _ _ _ Hws) i s e Hi).
  lia.
Qed.

(** C3.  For [0 <= overlap < chunk_size], [chunk_text] returns the
    non-empty trimmed windows of its scan, none of them the empty string.
    The parts of the successive windows that lie past the window before
    them concatenate to the text; taken on the trimmed windows, where each
    non-empty part is the tail of a returned chunk, they concatenate to
    the text up to whitespace, in order. *)
Theorem chunk_text_nonempty_and_covering (text : str) (cs ov : Z) :
  0 < cs -> 0 <= ov < cs ->
  exists chunks ws,
    chunk_text text cs ov = Ok chunks /\
    windows text cs ov = Some ws /\
    chunks = emitted text ws /\
    Forall (fun c => c <> []) chunks /\
    concat (fresh_portions text 0 ws) = text /\
    nospace (concat (nonoverlapping text 0 ws)) = nospace text /\
    Forall (fun p => p = [] \/ exists c, c ∈ chunks /\ p `suffix_of` c)
      (nonoverlapping text 0 ws).
Proof.
  intros Hcs Hov.
  destruct (chunk_text_windows text cs ov Hcs) as (ws & Hws & E).
  exists (emitted text ws), ws.
  pose proof (windows_scan _ _ _ _ Hws) as Hscan.
  rewrite clamp_overlap_id in Hscan by done.
  assert (0 <= len text) by (unfold len; lia).
  repeat split; try done.
  - apply emitted_nonempty.
  - rewrite (scan_fresh_portions text cs ov Hov 0 ws Hscan 0) by lia.
    apply drop_0.
  - rewrite (scan_nonoverlapping text cs ov Hov 0 ws Hscan 0) by lia.
    by rewrite drop_0.
  - apply Forall_lookup. intros i p Hp.
    apply nonoverlapping_lookup in Hp as (w & k & Hw & ->).
    destruct (trimmed text w) as [|c t] eqn:Et.
    + left. apply drop_nil.
    + right. exists (c :: t). split; [|apply suffix_drop].
      apply list_elem_of_In, List.filter_In. split; [|done].
      rewrite <- Et. apply List.in_map, list_elem_of_In.
      by eapply list_elem_of_lookup_2.
Qed.


(** Without the clamp the loop need not end: with [overlap = chunk_size]
    the start never moves. *)
Remark chunk_loop_unclamped_diverges (fuel : nat) (chunks : list str) :
  chunk_loop fuel (lit "abc") 2 2 0 chunks = None.
Proof.
  revert chunks. induction fuel as [|fuel IH]; intros chunks; [reflexivity|].
  change (chunk_loop (S fuel) (lit "abc") 2 2 0 chunks)
    with (chunk_loop fuel (lit "abc") 2 2 0 (chunks ++ [lit "ab"])).
  apply IH.
Qed.

(** *** Instances *)

Lemma chunk_text_short_text_witness :
  0 < 10 /\ len (lit " hi ") <= 10 /\
  chunk_text (lit " hi ") 10 2
  = Ok (if truthy (strip (lit " hi ")) then [strip (lit " hi ")] else []) /\
  chunk_text [] 10 2 = Ok [].
Proof.
  assert (H1 : 0 < 10) by lia.
  assert (H2 : len (lit " hi ") <= 10) by (vm_compute; discriminate).
  split; [exact H1|]. split; [exact H2|].
  exact (chunk_text_short_text (lit " hi ") 10 2 H1 H2).
Defined.

Lemma chunk_text_chunk_length_bound_witness :
  0 < 3 /\
  exists chunks,
    chunk_text (lit "a  bcd") 3 1 = Ok chunks /\
    Forall (fun c => len c <= 3) chunks.
Proof.
  assert (H1 : 0 < 3) by lia.
  split; [exact H1|].
  exact (chunk_text_chunk_length_bound (lit "a  bcd") 3 1 H1).
Defined.

Lemma chunk_text_nonempty_and_covering_witness :
  0 < 3 /\ 0 <= 1 < 3 /\
  exists chunks ws,
    chunk_text (lit "a  bcd") 3 1 = Ok chunks /\
    windows (lit "a  bcd") 3 1 = Some ws /\
    chunks = emitted (lit "a  bcd") ws /\
    Forall (fun c => c <> []) chunks /\
    concat (fresh_portions (lit "a  bcd") 0 ws) = lit "a  bcd" /\
    nospace (concat (nonoverlapping (lit "a  bcd") 0 ws))
    = nospace (lit "a  bcd") /\
    Forall (fun p => p = [] \/ exists c, c ∈ chunks /\ p `suffix_of` c)
      (nonoverlapping (lit "a  bcd") 0 ws).
Proof.
  assert (H1 : 0 < 3) by lia.
  assert (H2 : 0 <= 1 < 3) by lia.
  split; [exact H1|]. split; [exact H2|].
  exact (chunk_text_nonempty_and_covering (lit "a  bcd") 3 1 H1 H2).
Defined.


(** ** The document store and the pipelines *)

Section PipelineFacts.

Context `{VS : VectorStore}.

Implicit Types w : world.











End PipelineFacts.

(** ** Aggregation and ranking *)

Lemma Qltb_lt (x y : Q) : Qltb x y = true <-> (x < y)%Q.
Proof. unfold Qltb, Qlt. apply Z.ltb_lt. Qed.

Lemma Qltb_ge (x y : Q) : Qltb x y = false <-> (y <= x)%Q.
Proof. unfold Qltb, Qle. apply Z.ltb_ge. Qed.

Section Assoc.

Implicit Types best : list (pyval * Q).


Lemma assoc_get_None best k : assoc_get best k = None <-> k ∉ best.*1.
Proof.
  induction best as [|[k' d'] best IH]; simpl.
  - split; [intros _; apply not_elem_of_nil|done].
  - rewrite not_elem_of_cons. destruct (decide (k' = k)) as [->|Hne].
    + split; [done|]. by intros [? _].
    + rewrite IH. split; [intros ?; split; [congruence|done]|by intros [_ ?]].
Qed.


Lemma assoc_get_set best k d k' :
  assoc_get (assoc_set best k d) k'
  = if decide (k = k') then Some d else assoc_get best k'.
Proof.
  induction best as [|[k0 d0] best IH]; simpl.
  - done.
  - destruct (decide (k0 = k)) as [->|Hne]; simpl.
    + destruct (decide (k = k')); done.
    + rewrite IH. destruct (decide (k0 = k')) as [->|?]; [|done].
      by rewrite decide_False.
Qed.

Lemma assoc_set_keys best k d :
  (assoc_set best k d).*1
  = match assoc_get best k with
    | Some _ => best.*1
    | None => best.*1 ++ [k]
    end.
Proof.
  induction best as [|[k0 d0] best IH]; csimpl; [done|].
  destruct (decide (k0 = k)) as [->|Hne]; csimpl; [done|].
  rewrite IH. by destruct (assoc_get best k).
Qed.

Lemma assoc_set_NoDup best k d :
  NoDup best.*1 -> NoDup (assoc_set best k d).*1.
Proof.
  intros Hnd. rewrite assoc_set_keys.
  destruct (assoc_get best k) eqn:E; [done|].
  apply NoDup_app. split; [done|]. split; [|apply NoDup_singleton].
  intros x Hx Hx'. apply list_elem_of_singleton in Hx' as ->.
  by apply assoc_get_None in E.
Qed.

End Assoc.

Lemma best_scores_snoc hits h :
  best_scores (hits ++ [h]) = best_step (best_scores hits) h.
Proof. unfold best_scores. by rewrite foldl_app. Qed.

(** What the dictionary [best_scores] holds after the loop: for an id it
    has, a distance of a hit of that id that no hit of that id is below;
    an id it lacks is the id of no hit, or is falsy. *)
Lemma best_scores_spec hits :
  NoDup (best_scores hits).*1 /\
  forall id,
    match assoc_get (best_scores hits) id with
    | Some d =>
        truthy_val id = true /\
        (exists m, (m, d) ∈ hits /\ hit_doc_id m = Some id) /\
        (forall m d', (m, d') ∈ hits -> hit_doc_id m = Some id ->
                      (d <= d')%Q)
    | None =>
        forall m d', (m, d') ∈ hits -> hit_doc_id m = Some id ->
                     truthy_val id = false
    end.
Proof.
  induction hits as [|[m0 d0] hits [IHnd IH]] using rev_ind.
  - split; [apply NoDup_nil_2|]. intros id m d' Hin.
    by apply elem_of_nil in Hin.
  - rewrite best_scores_snoc. unfold best_step. simpl.
    set (best := best_scores hits) in *.
    assert (Hold : forall id,
      hit_doc_id m0 <> Some id \/ truthy_val id = false ->
      match assoc_get best id with
      | Some d =>
          truthy_val id = true /\
          (exists m, (m, d) ∈ hits ++ [(m0, d0)] /\ hit_doc_id m = Some id) /\
          (forall m d', (m, d') ∈ hits ++ [(m0, d0)] ->
                        hit_doc_id m = Some id -> (d <= d')%Q)
      | None =>
          forall m d', (m, d') ∈ hits ++ [(m0, d0)] ->
                       hit_doc_id m = Some id -> truthy_val id = false
      end).
    { intros id Hid. specialize (IH id).
      destruct (assoc_get best id) as [d|].
      - destruct IH as (Ht & (m & Hm & Hmid) & Hmin).
        split; [done|]. split.
        + exists m. split; [|done]. apply elem_of_app. by left.
        + intros m' d' Hin Hid'. apply elem_of_app in Hin as [Hin|Hin].
          * by eapply Hmin.
          * apply list_elem_of_singleton in Hin as [= -> ->].
            destruct Hid; congruence.
      - intros m' d' Hin Hid'. apply elem_of_app in Hin as [Hin|Hin].
        + by eapply IH.
        + apply list_elem_of_singleton in Hin as [= -> ->].
          destruct Hid; congruence. }
    destruct (hit_doc_id m0) as [id0|] eqn:Hid0;
      [|split; [done|]; intros id; apply Hold; by left].
    destruct (truthy_val id0) eqn:Ht0; simpl;
      [|split; [done|]; intros id; apply Hold;
        destruct (decide (id0 = id)) as [<-|?]; [by right|left; congruence]].
    assert (Hnew :
      (forall m d', (m, d') ∈ hits -> hit_doc_id m = Some id0 ->
                    (d0 <= d')%Q) ->
      NoDup (assoc_set best id0 d0).*1 /\
      forall id,
        match assoc_get (assoc_set best id0 d0) id with
        | Some d =>
            truthy_val id = true /\
            (exists m, (m, d) ∈ hits ++ [(m0, d0)] /\
                       hit_doc_id m = Some id) /\
            (forall m d', (m, d') ∈ hits ++ [(m0, d0)] ->
                          hit_doc_id m = Some id -> (d <= d')%Q)
        | None =>
            forall m d', (m, d') ∈ hits ++ [(m0, d0)] ->
                         hit_doc_id m = Some id -> truthy_val id = false
        end).
    { intros Hmin. split; [by apply assoc_set_NoDup|].
      intros id. rewrite assoc_get_set.
      destruct (decide (id0 = id)) as [<-|Hne];
        [|apply Hold; left; congruence].
      split; [done|]. split.
      - exists m0. split; [|done]. apply elem_of_app. right.
        by apply list_elem_of_singleton.
      - intros m' d' Hin Hid'. apply elem_of_app in Hin as [Hin|Hin].
        + by eapply Hmin.
        + apply list_elem_of_singleton in Hin as [= -> ->].
          apply Qle_refl. }
    pose proof (IH id0) as IH0.
    destruct (assoc_get best id0) as [current|] eqn:Hcur.
    + destruct IH0 as (_ & Hwit & Hmin).
      destruct (Qltb d0 current) eqn:Hlt.
      * apply Hnew. intros m d' Hin Hid'.
        apply Qltb_lt in Hlt. apply Qlt_le_weak.
        eapply Qlt_le_trans; [exact Hlt|]. by eapply Hmin.
      * split; [done|]. intros id.
        destruct (decide (id0 = id)) as [<-|Hne];
          [|apply Hold; left; congruence].
        rewrite Hcur. split; [done|]. split.
        -- destruct Hwit as (m & Hm & Hmid). exists m.
           split; [|done]. apply elem_of_app. by left.
        -- intros m' d' Hin Hid'. apply elem_of_app in Hin as [Hin|Hin].
           ++ by eapply Hmin.
           ++ apply list_elem_of_singleton in Hin as [= -> ->].
              by apply Qltb_ge.
    + apply Hnew. intros m d' Hin Hid'.
      specialize (IH0 m d' Hin Hid'). congruence.
Qed.

#[local] Instance by_distance_trans : Transitive by_distance.
Proof. intros x y z. unfold by_distance. apply Qle_trans. Qed.

Lemma insert_by_distance_perm x l : insert_by_distance x l ≡ₚ x :: l.
Proof.
  induction l as [|y l IH]; simpl; [done|].
  destruct (Qltb y.2 x.2); [|done].
  rewrite IH. apply Permutation_swap.
Qed.

Lemma sorted_by_distance_perm l : sorted_by_distance l ≡ₚ l.
Proof.
  induction l as [|x l IH]; simpl; [done|].
  rewrite insert_by_distance_perm. by rewrite IH.
Qed.



(** The sort is stable: among the entries at one distance the order is
    kept. *)
Lemma insert_by_distance_stable (k : Q) x l :
  List.filter (fun y => Qeq_bool y.2 k) (insert_by_distance x l)
  = List.filter (fun y => Qeq_bool y.2 k) (x :: l).
Proof.
  induction l as [|y l IH]; [done|].
  cbn [insert_by_distance]. destruct (Qltb y.2 x.2) eqn:E; [|done].
  cbn [List.filter] in *. rewrite IH.
  destruct (Qeq_bool y.2 k) eqn:Ey, (Qeq_bool x.2 k) eqn:Ex; try done.
  apply Qltb_lt in E. apply Qeq_bool_iff in Ey, Ex.
  rewrite Ey, Ex in E. by apply Qlt_irrefl in E.
Qed.

Lemma sorted_by_distance_stable (k : Q) l :
  List.filter (fun y => Qeq_bool y.2 k) (sorted_by_distance l)
  = List.filter (fun y => Qeq_bool y.2 k) l.
Proof.
  induction l as [|x l IH]; [done|].
  cbn [sorted_by_distance foldr]. rewrite insert_by_distance_stable.
  cbn [List.filter]. fold (sorted_by_distance l). by rewrite IH.
Qed.

Lemma ranked_take hits top_k :
  0 <= top_k ->
  ranked hits top_k
  = take (Z.to_nat top_k) (sorted_by_distance (best_scores hits)).
Proof.
  intros Hk. unfold ranked, slice, adjust_index.
  set (l := sorted_by_distance _).
  assert (0 <= len l) by (unfold len; lia).
  destruct (Z.ltb_spec 0 0); [lia|]. destruct (Z.ltb_spec top_k 0); [lia|].
  replace (Z.to_nat (Z.min 0 (len l))) with O by lia. rewrite drop_0.
  destruct (Z.le_gt_cases top_k (len l)).
  - do 2 f_equal. lia.
  - rewrite !take_ge; [done|unfold len in *; lia..].
Qed.


Lemma response_sublist docs rk :
  r_doc_id <$> response docs rk `sublist_of` rk.*1.
Proof.
  induction rk as [|[id0 d0] rk IH]; csimpl; [done|].
  destruct (store_lookup docs id0) as [stored0|]; [|by apply sublist_cons].
  destruct (decide (stored0 = ∅)); [by apply sublist_cons|].
  csimpl. by apply sublist_skip.
Qed.

(** Past the fast path, [query_index] embeds the query, asks the vector
    store for [top_k] hits and returns what [aggregate_hits] makes of
    them. *)
Lemma query_index_runs_aggregation `{VS : VectorStore}
    (query data_dir name : str) (top_k : Z) (embedder : option Embedder)
    (e : Embedder) (qe : list vector) (qr : query_result)
    (ms : list (option (gmap str pyval))) (ds : list Q) (w : world) :
  chromadb_installed w = true ->
  DocStore_count (stored_docs data_dir w) <> 0 ->
  embedder = Some e \/ embedder = None /\ default_embedder w = Ok e ->
  embed_texts e [query] = Ok qe ->
  vs_query (the_collection data_dir name w) qe top_k = Ok qr ->
  first_batch (qr_metadatas qr) = Ok ms ->
  first_batch (qr_distances qr) = Ok ds ->
  exists w',
    query_index query data_dir name top_k embedder w
    = (Ok (aggregate_hits query (stored_docs data_dir w) top_k ms ds), w') /\
    calls w' = calls w ++ [CallEmbed [query]; CallQuery data_dir name qe top_k].
Proof.
  intros Hchroma Hcount Hemb Hqe Hqr Hms Hds.
  set (w1 := (create_collection data_dir name w).2).
  assert (Hw1 : chromadb_installed w1 = chromadb_installed w /\
                default_embedder w1 = default_embedder w /\
                files w1 = files w /\ calls w1 = calls w /\
                the_collection data_dir name w1 = the_collection data_dir name w).
  { unfold w1, create_collection, modify, the_collection. simpl.
    destruct (collections w !! (data_dir, name)) eqn:E; simpl;
      rewrite ?E, ?lookup_insert_eq; done. }
  destruct Hw1 as (_ & Hdef & Hfiles & Hcalls & Hcoll).
  exists (add_call (CallQuery data_dir name qe top_k)
            (add_call (CallEmbed [query]) w1)).
  split.
  - unfold query_index, bind, ensure_chroma_client. rewrite Hchroma.
    change ((create_collection data_dir name w)) with
      (modify (fun w => (create_collection data_dir name w).2) w).
    unfold modify at 1. fold w1.
    unfold DocStore_load. rewrite Hfiles.
    unfold stored_docs in Hcount |- *.
    destruct (Z.eqb_spec (DocStore_count
      match files w !! doc_store_path data_dir with
      | Some (JDict docs) => docs
      | _ => ∅
      end) 0) as [Hz|_]; [done|].
    assert (Hres : resolve_embedder embedder w1 = (Ok e, w1)).
    { destruct Hemb as [->|[-> Hd]]; simpl; [done|]. by rewrite Hdef, Hd. }
    rewrite Hres. unfold call_embed. rewrite Hqe.
    unfold collection_query.
    replace (the_collection data_dir name (add_call (CallEmbed [query]) w1))
      with (the_collection data_dir name w) by (by rewrite <- Hcoll).
    rewrite Hqr. unfold lift. rewrite Hms, Hds. reflexivity.
  - simpl. rewrite Hcalls. by rewrite <- app_assoc.
Qed.


(** The score is not clamped: a distance above 1 gives a negative score. *)
Example response_negative_score :
  let docs := foldl DocStore_add ∅ [docA] in
  exists r, response docs [(VStr (doc_id docA), 3 # 2)%Q] = [r] /\
            score r = (1 - (3 # 2))%Q /\ (score r < 0)%Q.
Proof. eexists. split; [by vm_compute|]. split; [done|]. by vm_compute. Qed.

(** *** Instances of the pipeline properties *)






(** *** Worked runs *)

(** The store held A and B, the directory holds A and C: after an
    incremental build the store holds A, B and C; after a rebuild, A and C
    only. *)
Example incremental_build_keeps_stale_record :
  let w' := (build_index (lit "docs") (lit "data") (lit "c") 200 20 None
               false world_AB).2 in
  let new := stored_docs (lit "data") w' in
  DocStore_count new = 3 /\
  is_Some (new !! doc_id docA) /\ is_Some (new !! doc_id docB) /\
  is_Some (new !! doc_id docC).
Proof. vm_compute. repeat split; by eexists. Qed.

Example rebuild_drops_stale_record :
  let w' := (build_index (lit "docs") (lit "data") (lit "c") 200 20 None
               true world_AB).2 in
  let new := stored_docs (lit "data") w' in
  DocStore_count new = 2 /\
  is_Some (new !! doc_id docA) /\ new !! doc_id docB = None /\
  is_Some (new !! doc_id docC).
Proof. vm_compute. repeat split; by eexists. Qed.

(** Building, then querying with the stand-in collaborators: the result
    for the hits of the example is A (best distance 0.1) before B. *)
Example aggregate_hits_example :
  map r_doc_id
    (results (aggregate_hits (lit "alpha")
                (foldl DocStore_add ∅ [docA; docB]) 2
                hits_metadatas hits_distances))
  = [VStr (doc_id docA); VStr (doc_id docB)] /\
  map score
    (results (aggregate_hits (lit "alpha")
                (foldl DocStore_add ∅ [docA; docB]) 2
                hits_metadatas hits_distances))
  = [(1 - (1 # 10))%Q; (1 - (2 # 10))%Q].
Proof. split; by vm_compute. Qed.

(** * Further properties of the code *)

(** ** The document store *)

Section DocStoreFacts.

Context `{VS : VectorStore}.

Implicit Types w : world.


End DocStoreFacts.

(** After a series of [add]s, [get] returns the record of the last document
    added under that id, whole (an earlier record is replaced, not merged),
    and the record the store had when no document has that id. *)
Theorem DocStore_add_get_last (documents : list Document)
    (docs : gmap str (gmap str str)) (id : str) :
  DocStore_get (foldl DocStore_add docs documents) id
  = match last (filter (fun d => doc_id d = id) documents) with
    | Some d => Some (doc_record d)
    | None => DocStore_get docs id
    end.
Proof.
  unfold DocStore_get.
  induction documents as [|d documents IH] using rev_ind; [done|].
  rewrite foldl_app, filter_app. simpl. unfold DocStore_add at 1.
  rewrite filter_cons, filter_nil.
  destruct (decide (doc_id d = id)) as [<-|Hne].
  - rewrite lookup_insert_eq, last_snoc. done.
  - rewrite lookup_insert_ne by done. by rewrite app_nil_r.
Qed.

Lemma DocStore_add_size (documents : list Document) :
  forall (docs : gmap str (gmap str str)),
  NoDup (doc_id <$> documents) ->
  (forall d, d ∈ documents -> docs !! doc_id d = None) ->
  size (foldl DocStore_add docs documents)
  = (size docs + length documents)%nat.
Proof.
  induction documents as [|d documents IH]; intros docs Hnd Hfresh; simpl.
  - lia.
  - rewrite fmap_cons in Hnd. apply NoDup_cons in Hnd as [Hd Hnd].
    rewrite IH; [|done|].
    + unfold DocStore_add. rewrite map_size_insert_None; [lia|].
      apply Hfresh, elem_of_cons. by left.
    + intros d' Hd'. unfold DocStore_add.
      rewrite lookup_insert_ne.
      * apply Hfresh, elem_of_cons. by right.
      * intros Heq. apply Hd. rewrite Heq. by apply list_elem_of_fmap_2.
Qed.

(** Adding documents with distinct ids that the store does not hold yet
    raises [count] by their number; in general it raises it by at most
    that. *)
Theorem DocStore_count_add (documents : list Document)
    (docs : gmap str (gmap str str)) :
  NoDup (doc_id <$> documents) ->
  (forall d, d ∈ documents -> DocStore_get docs (doc_id d) = None) ->
  DocStore_count (foldl DocStore_add docs documents)
  = DocStore_count docs + len documents.
Proof.
  intros Hnd Hfresh. unfold DocStore_count, len.
  rewrite DocStore_add_size by done. lia.
Qed.

(** ** More on the chunker *)

Section ChunkerFacts.

Implicit Types s t text : str.

Lemma lstrip_head s c t : lstrip s = c :: t -> isspace c = false.
Proof.
  induction s as [|c' s IH]; simpl; [done|].
  destruct (isspace c') eqn:E; [done|]. by intros [= <- _].
Qed.

Lemma rstrip_take s : rstrip s = take (length s - lead (rev s)) s.
Proof.
  unfold rstrip. rewrite lstrip_drop, List.skipn_rev.
  apply rev_involutive.
Qed.

(** A trimmed string is a contiguous piece of the string; it begins and
    ends with a character that is not whitespace. *)
Lemma strip_infix s : exists a b, s = a ++ strip s ++ b.
Proof.
  unfold strip. rewrite rstrip_take, (lstrip_drop s).
  set (j := lead s). set (k := (_ - _)%nat).
  exists (take j s), (drop k (drop j s)).
  by rewrite take_drop, take_drop.
Qed.

Lemma strip_head s c t : strip s = c :: t -> isspace c = false.
Proof.
  unfold strip. rewrite rstrip_take.
  destruct (lstrip s) as [|c' l] eqn:E; [by rewrite take_nil|].
  destruct (_ - _)%nat; [done|]. simpl. intros [= <- _].
  by eapply lstrip_head.
Qed.

Lemma strip_last s c : last (strip s) = Some c -> isspace c = false.
Proof.
  unfold strip, rstrip. rewrite rev_alt.
  change (rev_append ?l []) with (reverse l). rewrite last_reverse.
  destruct (lstrip (rev (lstrip s))) as [|c' l] eqn:E; [done|].
  intros [= <-]. by eapply lstrip_head.
Qed.

Lemma slice_infix {A} (l : list A) a b : exists u v, l = u ++ slice l a b ++ v.
Proof.
  unfold slice.
  set (j := Z.to_nat _). set (k := Z.to_nat _).
  exists (take k l), (drop j (drop k l)).
  by rewrite take_drop, take_drop.
Qed.

Lemma nospace_nil_app s t : nospace (s ++ t) = [] -> nospace s = [] /\ nospace t = [].
Proof. rewrite nospace_app. apply app_eq_nil. Qed.

Lemma trimmed_blank text w : nospace text = [] -> trimmed text w = [].
Proof.
  intros Hb. unfold trimmed. apply strip_blank.
  destruct (slice_infix text w.1 w.2) as (u & v & Huv).
  rewrite Huv in Hb.
  apply nospace_nil_app in Hb as [_ Hb].
  by apply nospace_nil_app in Hb as [Hb _].
Qed.

Lemma emitted_nil text ws :
  emitted text ws = [] -> Forall (fun w => trimmed text w = []) ws.
Proof.
  induction ws as [|w ws IH]; [constructor|].
  rewrite emitted_cons. destruct (trimmed text w) eqn:E; simpl; [|done].
  intros H. constructor; [done|by apply IH].
Qed.

Lemma nonoverlapping_nil text ws : forall prev,
  Forall (fun w => trimmed text w = []) ws ->
  concat (nonoverlapping text prev ws) = [].
Proof.
  induction ws as [|[s e] ws IH]; intros prev Hall; [done|].
  apply Forall_cons in Hall as [Hw Hall]. simpl.
  rewrite Hw, drop_nil. by apply IH.
Qed.

Lemma concat_emitted text ws :
  concat (emitted text ws) = concat (map (trimmed text) ws).
Proof.
  induction ws as [|w ws IH]; [done|].
  rewrite emitted_cons. simpl.
  destruct (trimmed text w) eqn:E; simpl; by rewrite IH.
Qed.

(** With no overlap the trimmed windows are their own non-overlapping
    parts. *)
Lemma nonoverlapping_no_overlap text cs start ws :
  scan (len text) cs 0 start ws ->
  nonoverlapping text start ws = map (trimmed text) ws.
Proof.
  induction 1 as [start H|start H1 H2|start ws H1 H2 Hs IH]; simpl.
  - done.
  - by rewrite Z.sub_diag.
  - rewrite Z.sub_diag. simpl. f_equal.
    by replace (start + cs - 0) with (start + cs) in IH by lia.
Qed.

Lemma emitted_nil_iff_blank text (cs co : Z) ws :
  0 < cs -> windows text cs co = Some ws ->
  emitted text ws = [] <-> nospace text = [].
Proof.
  intros Hcs Hws.
  pose proof (clamp_overlap_range cs co Hcs) as Hov.
  assert (Hov' : 0 <= clamp_overlap cs co < cs) by lia.
  pose proof (windows_scan _ _ _ _ Hws) as Hscan.
  assert (0 <= len text) by (unfold len; lia).
  split.
  - intros Hnil.
    pose proof (scan_nonoverlapping text cs _ Hov' 0 ws Hscan 0) as Hn.
    change (Z.to_nat 0) with O in Hn. rewrite drop_0 in Hn.
    rewrite <- Hn by lia.
    by rewrite nonoverlapping_nil by (by apply emitted_nil).
  - intros Hb. unfold emitted. clear -Hb.
    induction ws as [|w ws IH]; [done|]. simpl.
    by rewrite (trimmed_blank text w Hb).
Qed.

(** For a positive chunk size [chunk_text] returns no chunk exactly when
    the text has no character that is not whitespace. *)
Theorem chunk_text_empty_iff_blank text (cs co : Z) :
  0 < cs ->
  exists chunks,
    chunk_text text cs co = Ok chunks /\
    (chunks = [] <-> nospace text = []).
Proof.
  intros Hcs. destruct (chunk_text_windows text cs co Hcs) as (ws & Hws & E).
  exists (emitted text ws). split; [done|].
  by apply (emitted_nil_iff_blank text cs co).
Qed.

(** Every chunk is a contiguous piece of the text, and it begins and ends
    with a character that is not whitespace. *)
Theorem chunk_text_chunks_are_trimmed_pieces text (cs co : Z) :
  0 < cs ->
  exists chunks,
    chunk_text text cs co = Ok chunks /\
    Forall (fun c =>
      (exists a b, text = a ++ c ++ b) /\
      (exists x, head c = Some x /\ isspace x = false) /\
      (exists y, last c = Some y /\ isspace y = false)) chunks.
Proof.
  intros Hcs. destruct (chunk_text_windows text cs co Hcs) as (ws & Hws & E).
  exists (emitted text ws). split; [done|].
  apply List.Forall_forall. intros c Hc.
  apply List.filter_In in Hc as [Hin Hne].
  apply List.in_map_iff in Hin as [w [<- _]].
  unfold trimmed in *. set (win := slice text w.1 w.2) in *.
  split; [|split].
  - destruct (slice_infix text w.1 w.2) as (u & v & Huv).
    destruct (strip_infix win) as (a & b & Hab).
    exists (u ++ a), (b ++ v). rewrite Huv at 1. fold win. rewrite Hab at 1.
    by rewrite <- !app_assoc.
  - destruct (strip win) as [|x t] eqn:Es; [done|].
    exists x. split; [done|]. by eapply strip_head.
  - destruct (last (strip win)) as [y|] eqn:El.
    + exists y. split; [done|]. by eapply strip_last.
    + apply last_None in El. by rewrite El in Hne.
Qed.

(** With an overlap of zero or less the chunks hold the text's
    non-whitespace characters, each once, in order. *)
Theorem chunk_text_no_overlap_partitions text (cs co : Z) :
  0 < cs -> co <= 0 ->
  exists chunks,
    chunk_text text cs co = Ok chunks /\
    nospace (concat chunks) = nospace text.
Proof.
  intros Hcs Hco. destruct (chunk_text_windows text cs co Hcs) as (ws & Hws & E).
  exists (emitted text ws). split; [done|].
  pose proof (windows_scan _ _ _ _ Hws) as Hscan.
  replace (clamp_overlap cs co) with 0 in Hscan
    by (unfold clamp_overlap; lia).
  assert (0 <= len text) by (unfold len; lia).
  rewrite concat_emitted, <- (nonoverlapping_no_overlap text cs 0 ws Hscan).
  assert (Hov : 0 <= 0 < cs) by lia.
  pose proof (scan_nonoverlapping text cs 0 Hov 0 ws Hscan 0) as Hn.
  change (Z.to_nat 0) with O in Hn. rewrite drop_0 in Hn.
  apply Hn; lia.
Qed.

End ChunkerFacts.

(** ** The chunks of the documents *)

Section BuildChunksFacts.

Lemma lit_inj (a b : string) : lit a = lit b -> a = b.
Proof.
  unfold lit. intros H.
  rewrite <- (String.string_of_list_ascii_of_string a),
          <- (String.string_of_list_ascii_of_string b).
  f_equal. revert H.
  generalize (String.list_ascii_of_string a) as la,
             (String.list_ascii_of_string b) as lb.
  induction la as [|x la IH]; intros [|y lb]; simpl; try done.
  intros [= Hxy Hl]. f_equal; [|by apply IH].
  rewrite <- (Ascii.ascii_N_embedding x), <- (Ascii.ascii_N_embedding y).
  by rewrite Hxy.
Qed.

Lemma str_of_nat_inj (i j : nat) : str_of_nat i = str_of_nat j -> i = j.
Proof.
  unfold str_of_nat. intros H. apply lit_inj in H.
  assert (Hu : Nat.to_uint i = Nat.to_uint j).
  { pose proof (DecimalString.NilEmpty.usu (Nat.to_uint i)) as Hi.
    pose proof (DecimalString.NilEmpty.usu (Nat.to_uint j)) as Hj.
    rewrite H in Hi. congruence. }
  rewrite <- (DecimalNat.Unsigned.of_to i), <- (DecimalNat.Unsigned.of_to j).
  by rewrite Hu.
Qed.

(** [str(n)] consists of decimal digits. *)
Lemma str_of_nat_digits (n : nat) :
  Forall (fun c => (48 <= c <= 57)%N) (str_of_nat n).
Proof.
  unfold str_of_nat. generalize (Nat.to_uint n) as d.
  induction d; simpl; constructor; try done; lia.
Qed.

Lemma str_of_nat_no_colon (n : nat) : 58%N ∉ str_of_nat n.
Proof.
  intros Hin. pose proof (str_of_nat_digits n) as Hd.
  rewrite Forall_forall in Hd. apply Hd in Hin. lia.
Qed.

Lemma app_sep_inj {A} (x : A) (l1 l2 r1 r2 : list A) :
  l1 ++ x :: r1 = l2 ++ x :: r2 -> x ∉ l1 -> x ∉ l2 -> l1 = l2 /\ r1 = r2.
Proof.
  revert l2. induction l1 as [|a l1 IH]; intros [|b l2] H H1 H2; simpl in *.
  - by injection H.
  - injection H as <- _. exfalso. apply H2. by left.
  - injection H as -> _. exfalso. apply H1. by left.
  - injection H as <- H. rewrite not_elem_of_cons in H1, H2.
    destruct (IH l2 H) as [-> ->]; tauto.
Qed.

(** A chunk id determines the document id and the index it was built
    from. *)
Lemma chunk_id_inj (d1 d2 : Document) (i1 i2 : nat) (t1 t2 : str) :
  chunk_id (make_chunk d1 i1 t1) = chunk_id (make_chunk d2 i2 t2) ->
  doc_id d1 = doc_id d2 /\ i1 = i2.
Proof.
  simpl. change (lit ":") with [58%N]. intros H.
  apply (f_equal (@rev _)) in H.
  rewrite !rev_app_distr in H. simpl in H. rewrite <- !app_assoc in H.
  simpl in H.
  apply app_sep_inj in H as [Hi Hd].
  - split.
    + rewrite <- (rev_involutive (doc_id d1)), Hd. apply rev_involutive.
    + apply str_of_nat_inj.
      rewrite <- (rev_involutive (str_of_nat i1)), Hi. apply rev_involutive.
  - rewrite list_elem_of_In, <- in_rev, <- list_elem_of_In.
    apply str_of_nat_no_colon.
  - rewrite list_elem_of_In, <- in_rev, <- list_elem_of_In.
    apply str_of_nat_no_colon.
Qed.

Lemma chunk_text_nonpositive text (cs co : Z) :
  cs <= 0 ->
  chunk_text text cs co = Raise (ValueError (lit "chunk_size must be positive")).
Proof. intros H. unfold chunk_text. destruct (Z.leb_spec cs 0); [done|lia]. Qed.

Lemma build_chunks_inv (documents : list Document) (cs co : Z) chunks :
  build_chunks documents cs co = Ok chunks ->
  match documents with
  | [] => chunks = []
  | d :: documents' =>
      exists ts rest,
        chunk_text (content d) cs co = Ok ts /\
        build_chunks documents' cs co = Ok rest /\
        chunks = imap (make_chunk d) ts ++ rest
  end.
Proof.
  destruct documents as [|d documents]; simpl; [by intros [= <-]|].
  destruct (chunk_text (content d) cs co) as [ts| |]; [|done..].
  destruct (build_chunks documents cs co) as [rest| |]; [|done..].
  intros [= <-]. by exists ts, rest.
Qed.

Lemma build_chunks_total (documents : list Document) (cs co : Z) :
  0 < cs -> exists chunks, build_chunks documents cs co = Ok chunks.
Proof.
  intros Hcs. induction documents as [|d documents [rest IH]]; simpl.
  - by eexists.
  - destruct (chunk_text_windows (content d) cs co Hcs) as (ws & _ & ->).
    rewrite IH. by eexists.
Qed.

(** Where each chunk comes from. *)
Lemma build_chunks_elem (documents : list Document) (cs co : Z) :
  forall chunks c,
  build_chunks documents cs co = Ok chunks -> c ∈ chunks ->
  exists d ts i,
    d ∈ documents /\ chunk_text (content d) cs co = Ok ts /\
    ts !! i = Some (chunk_content c) /\ c = make_chunk d i (chunk_content c).
Proof.
  induction documents as [|d documents IH]; intros chunks c Hb Hc;
    apply build_chunks_inv in Hb.
  - subst. by apply elem_of_nil in Hc.
  - destruct Hb as (ts & rest & Hts & Hrest & ->).
    apply elem_of_app in Hc as [Hc|Hc].
    + apply elem_of_lookup_imap in Hc as (i & t & -> & Hi).
      exists d, ts, i. split; [by left|]. done.
    + destruct (IH rest c Hrest Hc) as (d' & ts' & i & Hd' & ?).
      exists d', ts', i. split; [by right|done].
Qed.

(** [_build_chunks] raises exactly when the chunk size is not positive and
    there is a document to chunk, and then it raises the [ValueError] of
    [chunk_text]; with no document it returns the empty list whatever the
    chunk size. *)
Theorem build_chunks_raises_iff (documents : list Document) (cs co : Z) :
  (build_chunks documents cs co
   = Raise (ValueError (lit "chunk_size must be positive"))
   <-> cs <= 0 /\ documents <> []) /\
  ((exists e, build_chunks documents cs co = Raise e)
   <-> cs <= 0 /\ documents <> []) /\
  ((exists chunks, build_chunks documents cs co = Ok chunks)
   <-> 0 < cs \/ documents = []).
Proof.
  destruct (Z.le_gt_cases cs 0) as [Hle|Hgt].
  - destruct documents as [|d documents].
    + simpl. split; [|split].
      * split; [done|]. by intros [_ ?].
      * split; [by intros [? ?]|]. by intros [_ ?].
      * split; [by right|]. by eexists.
    + simpl. rewrite (chunk_text_nonpositive _ _ _ Hle). split; [|split].
      * done.
      * split; [done|]. by eexists.
      * split; [by intros [? ?]|]. intros [?|?]; [lia|done].
  - destruct (build_chunks_total documents cs co) as [chunks ->]; [lia|].
    split; [|split].
    + split; [done|]. intros [? _]. lia.
    + split; [by intros [? ?]|]. intros [? _]. lia.
    + split; [by left|]. by eexists.
Qed.

(** Documents with distinct ids give chunks with distinct chunk ids. *)
Theorem build_chunks_ids_distinct (documents : list Document) (cs co : Z) :
  0 < cs ->
  NoDup (doc_id <$> documents) ->
  exists chunks,
    build_chunks documents cs co = Ok chunks /\
    NoDup (chunk_id <$> chunks).
Proof.
  intros Hcs Hnd.
  destruct (build_chunks_total documents cs co Hcs) as [chunks Hb].
  exists chunks. split; [done|].
  revert chunks Hb Hnd.
  induction documents as [|d documents IH]; intros chunks Hb Hnd;
    pose proof (build_chunks_inv _ _ _ _ Hb) as Hinv.
  - simpl in Hinv. subst. apply NoDup_nil_2.
  - destruct Hinv as (ts & rest & Hts & Hrest & ->).
    rewrite fmap_cons in Hnd. apply NoDup_cons in Hnd as [Hd Hnd].
    rewrite fmap_app. apply NoDup_app. split; [|split].
    + apply NoDup_alt. intros i j x Hi Hj.
      rewrite list_lookup_fmap, list_lookup_imap in Hi, Hj.
      destruct (ts !! i) as [ti|]; [|done].
      destruct (ts !! j) as [tj|]; [|done].
      simpl in Hi, Hj. rewrite <- Hj in Hi. injection Hi as Hi.
      by apply (chunk_id_inj d d i j ti tj).
    + intros x Hx Hx'.
      apply list_elem_of_fmap in Hx as (c & -> & Hc).
      apply elem_of_lookup_imap in Hc as (i & t & -> & _).
      apply list_elem_of_fmap in Hx' as (c' & Heq & Hc').
      destruct (build_chunks_elem _ _ _ _ _ Hrest Hc')
        as (d' & ts' & i' & Hd' & _ & _ & Hmk).
      rewrite Hmk in Heq. apply chunk_id_inj in Heq as [Heq _].
      apply Hd. rewrite Heq. by apply list_elem_of_fmap_2.
    + by apply IH.
Qed.

(** Chunk [i] of a document is the [i]-th piece [chunk_text] returns for
    its content; it carries the document's id and path, and no chunk is
    empty. *)
Theorem build_chunks_indexed (documents : list Document) (cs co : Z) :
  0 < cs ->
  exists chunks,
    build_chunks documents cs co = Ok chunks /\
    Forall (fun c =>
      chunk_content c <> [] /\ 0 <= index c /\
      exists d ts,
        d ∈ documents /\ chunk_text (content d) cs co = Ok ts /\
        ts !! Z.to_nat (index c) = Some (chunk_content c) /\
        chunk_doc_id c = doc_id d /\ source_path c = path d /\
        chunk_id c
        = doc_id d ++ lit ":" ++ str_of_nat (Z.to_nat (index c))) chunks /\
    (forall d ts i t,
       d ∈ documents -> chunk_text (content d) cs co = Ok ts ->
       ts !! i = Some t -> make_chunk d i t ∈ chunks).
Proof.
  intros Hcs.
  destruct (build_chunks_total documents cs co Hcs) as [chunks Hb].
  exists chunks. split; [done|]. split.
  - apply Forall_forall. intros c Hc.
    destruct (build_chunks_elem _ _ _ _ _ Hb Hc)
      as (d & ts & i & Hd & Hts & Hi & Hmk).
    assert (Hidx : index c = Z.of_nat i) by (by rewrite Hmk).
    split; [|split; [lia|]].
    + destruct (chunk_text_windows (content d) cs co Hcs) as (ws & _ & E).
      rewrite E in Hts. injection Hts as <-.
      pose proof (emitted_nonempty (content d) ws) as Hne.
      rewrite List.Forall_forall in Hne. apply Hne.
      apply list_elem_of_In. by eapply list_elem_of_lookup_2.
    + exists d, ts. rewrite Hidx, Nat2Z.id.
      split; [done|]. split; [done|]. split; [done|]. by rewrite Hmk.
  - revert chunks Hb.
    induction documents as [|d0 documents IH]; intros chunks Hb d ts i t Hd;
      [by apply elem_of_nil in Hd|].
    apply build_chunks_inv in Hb as (ts0 & rest & Hts0 & Hrest & ->).
    intros Hts Hi. apply elem_of_cons in Hd as [->|Hd].
    + apply elem_of_app. left. rewrite Hts0 in Hts. injection Hts as ->.
      by apply elem_of_lookup_imap_2.
    + apply elem_of_app. right. by eapply IH.
Qed.

End BuildChunksFacts.

(** ** More on [build_index] *)

Section BuildIndexFacts.

Context `{VS : VectorStore}.

Implicit Types w : world.









End BuildIndexFacts.

(** ** More on [query_index] and [get_status] *)

Section QueryFacts.

Context `{VS : VectorStore}.

Implicit Types w : world.






End QueryFacts.

(** ** More on the ranking *)

Section RankingFacts.

Lemma assoc_set_length best k d :
  (length (assoc_set best k d) <= S (length best))%nat.
Proof.
  induction best as [|[k' d'] best IH]; simpl; [lia|].
  destruct (decide (k' = k)); simpl; lia.
Qed.

Lemma best_scores_length hits :
  (length (best_scores hits) <= length hits)%nat.
Proof.
  induction hits as [|h hits IH] using rev_ind; [done|].
  rewrite best_scores_snoc, length_app. simpl.
  unfold best_step. destruct (hit_doc_id h.1) as [id|]; [|lia].
  destruct (negb (truthy_val id)); [lia|].
  pose proof (assoc_set_length (best_scores hits) id h.2).
  destruct (assoc_get (best_scores hits) id); [|lia].
  destruct (Qltb h.2 q); lia.
Qed.

Lemma zip_length {A B} (l : list A) (k : list B) :
  (length (zip l k) <= length l)%nat /\ (length (zip l k) <= length k)%nat.
Proof.
  revert k. induction l as [|a l IH]; intros [|b k]; simpl; try lia.
  destruct (IH k). lia.
Qed.


(** For [top_k >= 0] a query returns at most [top_k] results, no more than
    there are hits, and no document twice. *)
Theorem aggregate_hits_results_bounded
    (query : str) (docs : gmap str (gmap str str)) (top_k : Z)
    (ms : list (option (gmap str pyval))) (ds : list Q) :
  0 <= top_k ->
  let rs := results (aggregate_hits query docs top_k ms ds) in
  len rs <= top_k /\
  (length rs <= length ms)%nat /\ (length rs <= length ds)%nat /\
  NoDup (r_doc_id <$> rs).
Proof.
  intros Hk rs. unfold rs, aggregate_hits. simpl. rewrite ranked_take by done.
  set (best := best_scores (zip ms ds)).
  set (rk := take (Z.to_nat top_k) (sorted_by_distance best)).
  pose proof (response_sublist docs rk) as Hsub.
  pose proof (sublist_length _ _ Hsub) as Hlen.
  rewrite !length_fmap in Hlen.
  assert (Hrk : (length rk <= Z.to_nat top_k)%nat /\
                (length rk <= length (zip ms ds))%nat).
  { unfold rk. rewrite length_take.
    rewrite (Permutation_length (sorted_by_distance_perm best)).
    pose proof (best_scores_length (zip ms ds)). fold best in H. lia. }
  destruct (zip_length ms ds) as [Hms Hds].
  split; [unfold len; lia|]. split; [lia|]. split; [lia|].
  eapply sublist_NoDup; [|exact Hsub].
  unfold rk. rewrite fmap_take.
  eapply sublist_NoDup; [|apply sublist_take].
  rewrite (fmap_Permutation fst _ _ (sorted_by_distance_perm best)).
  apply best_scores_spec.
Qed.


End RankingFacts.

(** ** Loading documents *)

Section LoaderFacts.

Variable sha256_hex : str -> str.
Variable docx_installed : bool.

Lemma strip_nil_iff_blank (s : str) : strip s = [] <-> nospace s = [].
Proof.
  split; [|apply strip_blank].
  intros H. by rewrite <- nospace_strip, H.
Qed.

Lemma load_loop_acc entries : forall acc,
  load_loop sha256_hex docx_installed entries acc
  = match load_loop sha256_hex docx_installed entries [] with
    | Ok docs => Ok (acc ++ docs)
    | Raise err => Raise err
    | Diverge => Diverge
    end.
Proof.
  induction entries as [|e entries IH]; intros acc; simpl.
  - by rewrite app_nil_r.
  - destruct (negb (de_is_file e)); [apply IH|].
    destruct (negb (bool_decide _)); [apply IH|].
    destruct (read_document docx_installed e) as [text| |]; [|done..].
    destruct (negb (truthy (strip text))); [apply IH|].
    rewrite (IH (acc ++ _)), (IH [_]).
    destruct (load_loop sha256_hex docx_installed entries []); [|done..].
    by rewrite <- app_assoc.
Qed.

Lemma load_loop_Ok entries : forall docs,
  load_loop sha256_hex docx_installed entries [] = Ok docs ->
  docs = omap (loaded_from sha256_hex docx_installed) entries.
Proof.
  induction entries as [|e entries IH]; intros docs; simpl.
  - by intros [= <-].
  - unfold loaded_from. destruct (de_is_file e); simpl; [|apply IH].
    destruct (bool_decide (de_suffix e ∈ SUPPORTED_SUFFIXES)); simpl;
      [|apply IH].
    destruct (read_document docx_installed e) as [text| |]; [|done..].
    destruct (truthy (strip text)); simpl; [|apply IH].
    rewrite load_loop_acc.
    destruct (load_loop sha256_hex docx_installed entries []) as [rest| |]; [|done..].
    intros [= <-]. simpl. f_equal. by apply IH.
Qed.

(** The documents [load_documents] returns are, in the order of the sorted
    paths, those of the files with a supported suffix whose text is not
    blank; each has the hash of its relative path as id.  A directory that
    does not exist gives no document. *)
Theorem load_documents_of_result (entries : list dir_entry)
    (docs : list Document) :
  load_documents_of sha256_hex docx_installed (Some entries) = Ok docs ->
  load_documents_of sha256_hex docx_installed None = Ok [] /\
  Forall (fun d =>
    nospace (content d) <> [] /\
    exists e, e ∈ entries /\ de_is_file e = true /\
      de_suffix e ∈ SUPPORTED_SUFFIXES /\
      read_document docx_installed e = Ok (content d) /\
      doc_id d = sha256_hex (de_rel_path e) /\ path d = de_path e) docs /\
  path <$> docs `sublist_of` de_path <$> entries /\
  Forall (fun e =>
    de_is_file e = true -> de_suffix e ∈ SUPPORTED_SUFFIXES ->
    forall text, read_document docx_installed e = Ok text -> nospace text <> [] ->
    {| doc_id := sha256_hex (de_rel_path e); path := de_path e;
       content := text |} ∈ docs) entries.
Proof.
  simpl. intros Hload. apply load_loop_Ok in Hload as ->.
  split; [done|]. split; [|split].
  - apply Forall_forall. intros d Hd.
    apply list_elem_of_omap in Hd as (e & He & Hd).
    unfold loaded_from in Hd.
    destruct (de_is_file e) eqn:Hf; [|done].
    destruct (bool_decide_reflect (de_suffix e ∈ SUPPORTED_SUFFIXES));
      [|done].
    simpl in Hd. destruct (read_document docx_installed e) as [text| |] eqn:Hr; [|done..].
    destruct (strip text) eqn:Hs; [done|]. simpl in Hd. injection Hd as <-.
    simpl. split.
    + intros Hb. apply strip_nil_iff_blank in Hb. congruence.
    + by exists e.
  - clear. induction entries as [|e entries IH]; csimpl; [done|].
    destruct ((loaded_from sha256_hex docx_installed) e) as [d|] eqn:E; csimpl.
    + replace (path d) with (de_path e); [by apply sublist_skip|].
      unfold loaded_from in E.
      destruct (_ && _); [|done].
      destruct (read_document docx_installed e); [|done..].
      destruct (truthy _); [|done]. by injection E as <-.
    + by apply sublist_cons.
  - apply Forall_forall. intros e He Hf Hs text Hr Hb.
    apply list_elem_of_omap. exists e. split; [done|].
    unfold loaded_from. rewrite Hf, bool_decide_true by done. simpl.
    rewrite Hr. destruct (strip text) eqn:Est; [|done].
    exfalso. apply Hb. by apply strip_nil_iff_blank.
Qed.


(** Every loaded document gives at least one chunk: for a positive chunk
    size there are at least as many chunks as documents, and none only
    when no document was loaded. *)
Theorem loaded_documents_all_give_chunks (listing : option (list dir_entry))
    (docs : list Document) (cs co : Z) :
  0 < cs ->
  load_documents_of sha256_hex docx_installed listing = Ok docs ->
  exists chunks,
    build_chunks docs cs co = Ok chunks /\
    (length docs <= length chunks)%nat /\
    (chunks = [] <-> docs = []).
Proof.
  intros Hcs Hload.
  assert (Hnb : Forall (fun d => nospace (content d) <> []) docs).
  { destruct listing as [entries|]; simpl in Hload;
      [|injection Hload as <-; constructor].
    apply load_loop_Ok in Hload as ->.
    apply Forall_forall. intros d Hd.
    apply list_elem_of_omap in Hd as (e & _ & Hd).
    unfold loaded_from in Hd. destruct (_ && _); [|done].
    destruct (read_document docx_installed e) as [text| |]; [|done..].
    destruct (strip text) eqn:Hs; [done|]. injection Hd as <-. simpl.
    intros Hb. apply strip_nil_iff_blank in Hb. congruence. }
  clear Hload.
  destruct (build_chunks_total docs cs co Hcs) as [chunks Hb].
  exists chunks. split; [done|].
  assert (Hlen : (length docs <= length chunks)%nat).
  { revert chunks Hb. induction Hnb as [|d docs Hd Hnb IH]; intros chunks Hb;
      [simpl; lia|].
    apply build_chunks_inv in Hb as (ts & rest & Hts & Hrest & ->).
    rewrite length_app, length_imap. simpl.
    specialize (IH rest Hrest).
    destruct (chunk_text_windows (content d) cs co Hcs) as (ws & Hws & E).
    rewrite E in Hts. injection Hts as <-.
    destruct (emitted (content d) ws) eqn:Eem; [|simpl; lia].
    exfalso. apply Hd. by apply (emitted_nil_iff_blank _ cs co ws). }
  split; [done|]. split.
  - intros ->. destruct docs; [done|]. simpl in Hlen. lia.
  - intros ->. simpl in Hb. by injection Hb.
Qed.

End LoaderFacts.

(** ** The tools *)

Section ServerFacts.

Context `{VS : VectorStore}.

Variable str_lower : str -> str.
Variable int_of_str : str -> option Z.
Variable as_posix : str -> str.
Variable sentence_transformer_embedder : outcome Embedder.
Variable simple_keyword_embedder : Embedder.

Implicit Types w : world.

Lemma str_or_idem (b : option str) (g : str) :
  str_or (Some (str_or b g)) g = str_or b g.
Proof.
  destruct b as [[|c s]|]; simpl; try by destruct g.
Qed.

(** The backend a tool hands to [get_embedder] selects the same embedder as
    its own [embedding_backend] argument. *)
Lemma get_embedder_tool_backend (env : gmap str str) (backend : option str) :
  get_embedder str_lower sentence_transformer_embedder
    simple_keyword_embedder env
    (Some (str_or backend
             (cfg_embedding_backend (load_config int_of_str as_posix env))))
  = get_embedder str_lower sentence_transformer_embedder
      simple_keyword_embedder env backend.
Proof.
  unfold get_embedder, load_config. cbn [cfg_embedding_backend].
  by rewrite str_or_idem.
Qed.

(** [build_index_tool] and [query_tool] construct the embedder before
    anything else: when [get_embedder] raises (an unknown backend name, a
    missing model library), the tool raises the same error and nothing has
    been read or written, whatever the state of the data directory. *)
Theorem tools_construct_embedder_first (env : gmap str str)
    (query : str) (docs_dir data_dir collection_name : option str)
    (chunk_size chunk_overlap top_k : option Z)
    (embedding_backend : option str) (rebuild : bool) (err : exn) w :
  get_embedder str_lower sentence_transformer_embedder
    simple_keyword_embedder env embedding_backend = Raise err ->
  build_index_tool str_lower int_of_str as_posix
    sentence_transformer_embedder simple_keyword_embedder env
    docs_dir data_dir collection_name chunk_size chunk_overlap
    embedding_backend rebuild w = (Raise err, w) /\
  query_tool str_lower int_of_str as_posix
    sentence_transformer_embedder simple_keyword_embedder env
    query data_dir collection_name top_k embedding_backend w
  = (Raise err, w).
Proof.
  intros Herr. unfold build_index_tool, query_tool, bind, lift.
  rewrite get_embedder_tool_backend, Herr. done.
Qed.

(** [refresh_index_tool] is [build_index_tool] called with no argument but
    [rebuild=True]. *)
Remark refresh_index_tool_is_rebuild (env : gmap str str) w :
  refresh_index_tool str_lower int_of_str as_posix
    sentence_transformer_embedder simple_keyword_embedder env w
  = build_index_tool str_lower int_of_str as_posix
      sentence_transformer_embedder simple_keyword_embedder env
      None None None None None None true w.
Proof. reflexivity. Qed.

(** [status_tool] does not depend on the embedding backend: whatever
    [MCP_EMBEDDING_BACKEND] and the model libraries are, it is [get_status]
    on the configured data directory and collection. *)
Theorem status_tool_ignores_embedding_backend (env : gmap str str)
    (data_dir collection_name : option str) (backend : str) w :
  status_tool int_of_str as_posix
    (<[lit "MCP_EMBEDDING_BACKEND" := backend]> env)
    data_dir collection_name w
  = status_tool int_of_str as_posix env data_dir collection_name w /\
  status_tool int_of_str as_posix env None None w
  = get_status
      (as_posix (default (lit "data") (env !! lit "MCP_DATA_DIR")))
      (default (lit "rag_docs") (env !! lit "MCP_COLLECTION_NAME")) w.
Proof.
  split; [|reflexivity].
  unfold status_tool, load_config, getenv. simpl.
  rewrite !lookup_insert_ne by (by vm_compute). done.
Qed.

End ServerFacts.

(** ** Instances of the further properties *)

Lemma DocStore_count_add_witness :
  NoDup (doc_id <$> [docB; docC]) /\
  (forall d, d ∈ [docB; docC] ->
     DocStore_get (foldl DocStore_add ∅ [docA]) (doc_id d) = None) /\
  DocStore_count (foldl DocStore_add (foldl DocStore_add ∅ [docA]) [docB; docC])
  = DocStore_count (foldl DocStore_add ∅ [docA]) + len [docB; docC].
Proof.
  assert (H1 : NoDup (doc_id <$> [docB; docC])).
  { apply NoDup_cons. split.
    - intros H. apply list_elem_of_singleton in H. by vm_compute in H.
    - apply NoDup_singleton. }
  assert (H2 : forall d, d ∈ [docB; docC] ->
            DocStore_get (foldl DocStore_add ∅ [docA]) (doc_id d) = None).
  { intros d Hd. apply elem_of_cons in Hd as [->|Hd].
    - by vm_compute.
    - apply list_elem_of_singleton in Hd as ->. by vm_compute. }
  split; [exact H1|]. split; [exact H2|].
  exact (DocStore_count_add [docB; docC] (foldl DocStore_add ∅ [docA]) H1 H2).
Defined.

Lemma chunk_text_empty_iff_blank_witness :
  0 < 3 /\
  exists chunks,
    chunk_text (lit "a  bcd") 3 1 = Ok chunks /\
    (chunks = [] <-> nospace (lit "a  bcd") = []).
Proof.
  assert (H1 : 0 < 3) by lia.
  split; [exact H1|].
  exact (chunk_text_empty_iff_blank (lit "a  bcd") 3 1 H1).
Defined.

Lemma chunk_text_chunks_are_trimmed_pieces_witness :
  0 < 3 /\
  exists chunks,
    chunk_text (lit "a  bcd") 3 1 = Ok chunks /\
    Forall (fun c =>
      (exists a b, lit "a  bcd" = a ++ c ++ b) /\
      (exists x, head c = Some x /\ isspace x = false) /\
      (exists y, last c = Some y /\ isspace y = false)) chunks.
Proof.
  assert (H1 : 0 < 3) by lia.
  split; [exact H1|].
  exact (chunk_text_chunks_are_trimmed_pieces (lit "a  bcd") 3 1 H1).
Defined.

Lemma chunk_text_no_overlap_partitions_witness :
  0 < 3 /\ -2 <= 0 /\
  exists chunks,
    chunk_text (lit "ab      cd") 3 (-2) = Ok chunks /\
    nospace (concat chunks) = nospace (lit "ab      cd").
Proof.
  assert (H1 : 0 < 3) by lia.
  assert (H2 : -2 <= 0) by lia.
  split; [exact H1|]. split; [exact H2|].
  exact (chunk_text_no_overlap_partitions (lit "ab      cd") 3 (-2) H1 H2).
Defined.

Lemma NoDup_docs_AC : NoDup (doc_id <$> [docA; docC]).
Proof.
  apply NoDup_cons. split.
  - intros H. apply list_elem_of_singleton in H. by vm_compute in H.
  - apply NoDup_singleton.
Defined.

Lemma build_chunks_ids_distinct_witness :
  0 < 200 /\ NoDup (doc_id <$> [docA; docC]) /\
  exists chunks,
    build_chunks [docA; docC] 200 20 = Ok chunks /\
    NoDup (chunk_id <$> chunks).
Proof.
  assert (H1 : 0 < 200) by lia.
  split; [exact H1|]. split; [exact NoDup_docs_AC|].
  exact (build_chunks_ids_distinct [docA; docC] 200 20 H1 NoDup_docs_AC).
Defined.

Lemma build_chunks_indexed_witness :
  0 < 10 /\
  exists chunks,
    build_chunks [docA; docC] 10 2 = Ok chunks /\
    Forall (fun c =>
      chunk_content c <> [] /\ 0 <= index c /\
      exists d ts,
        d ∈ [docA; docC] /\ chunk_text (content d) 10 2 = Ok ts /\
        ts !! Z.to_nat (index c) = Some (chunk_content c) /\
        chunk_doc_id c = doc_id d /\ source_path c = path d /\
        chunk_id c
        = doc_id d ++ lit ":" ++ str_of_nat (Z.to_nat (index c))) chunks /\
    (forall d ts i t,
       d ∈ [docA; docC] -> chunk_text (content d) 10 2 = Ok ts ->
       ts !! i = Some t -> make_chunk d i t ∈ chunks).
Proof.
  assert (H1 : 0 < 10) by lia.
  split; [exact H1|].
  exact (build_chunks_indexed [docA; docC] 10 2 H1).
Defined.






Lemma aggregate_hits_results_bounded_witness :
  0 <= 1 /\
  let rs := results (aggregate_hits (lit "alpha")
                       (foldl DocStore_add ∅ [docA; docB]) 1
                       hits_metadatas hits_distances) in
  len rs <= 1 /\
  (length rs <= length hits_metadatas)%nat /\
  (length rs <= length hits_distances)%nat /\
  NoDup (r_doc_id <$> rs).
Proof.
  assert (H1 : 0 <= 1) by lia.
  split; [exact H1|].
  exact (aggregate_hits_results_bounded (lit "alpha")
           (foldl DocStore_add ∅ [docA; docB]) 1
           hits_metadatas hits_distances H1).
Defined.

Lemma load_documents_of_result_witness :
  load_documents_of (fun s => s) true (Some listing_docs) = Ok loaded_docs /\
  load_documents_of (fun s => s) true None = Ok [] /\
  Forall (fun d =>
    nospace (content d) <> [] /\
    exists e, e ∈ listing_docs /\ de_is_file e = true /\
      de_suffix e ∈ SUPPORTED_SUFFIXES /\
      read_document true e = Ok (content d) /\
      doc_id d = (fun s => s) (de_rel_path e) /\ path d = de_path e)
    loaded_docs /\
  path <$> loaded_docs `sublist_of` de_path <$> listing_docs /\
  Forall (fun e =>
    de_is_file e = true -> de_suffix e ∈ SUPPORTED_SUFFIXES ->
    forall text, read_document true e = Ok text -> nospace text <> [] ->
    {| doc_id := (fun s => s) (de_rel_path e); path := de_path e;
       content := text |} ∈ loaded_docs) listing_docs.
Proof.
  assert (H1 : load_documents_of (fun s => s) true (Some listing_docs)
               = Ok loaded_docs) by (vm_compute; reflexivity).
  split; [exact H1|].
  exact (load_documents_of_result (fun s => s) true listing_docs loaded_docs
           H1).
Defined.


Lemma loaded_documents_all_give_chunks_witness :
  0 < 10 /\
  load_documents_of (fun s => s) true (Some listing_docs) = Ok loaded_docs /\
  exists chunks,
    build_chunks loaded_docs 10 2 = Ok chunks /\
    (length loaded_docs <= length chunks)%nat /\
    (chunks = [] <-> loaded_docs = []).
Proof.
  assert (H1 : 0 < 10) by lia.
  assert (H2 : load_documents_of (fun s => s) true (Some listing_docs)
               = Ok loaded_docs) by (vm_compute; reflexivity).
  split; [exact H1|]. split; [exact H2|].
  exact (loaded_documents_all_give_chunks (fun s => s) true
           (Some listing_docs) loaded_docs 10 2 H1 H2).
Defined.

Lemma tools_construct_embedder_first_witness :
  let err := ValueError (lit "Unknown embedding backend: bogus") in
  get_embedder (fun s => s) no_sentence_transformer length_embedder
    env_bogus None = Raise err /\
  build_index_tool (fun s => s) (fun _ => None) (fun s => s)
    no_sentence_transformer length_embedder env_bogus
    None None None None None None true world_AB = (Raise err, world_AB) /\
  query_tool (fun s => s) (fun _ => None) (fun s => s)
    no_sentence_transformer length_embedder env_bogus
    (lit "alpha") None None None None world_AB = (Raise err, world_AB).
Proof.
  intros err.
  assert (H1 : get_embedder (fun s => s) no_sentence_transformer
                 length_embedder env_bogus None = Raise err)
    by (vm_compute; reflexivity).
  split; [exact H1|].
  exact (tools_construct_embedder_first (fun s => s) (fun _ => None)
           (fun s => s) no_sentence_transformer length_embedder env_bogus
           (lit "alpha") None None None None None None None true err
           world_AB H1).
Defined.

(** ** Window positions and the number of chunks *)

Lemma scan_starts (length cs ov start : Z) ws :
  scan length cs ov start ws ->
  forall i s e, ws !! i = Some (s, e) -> s = start + Z.of_nat i * (cs - ov).
Proof.
  induction 1 as [start H|start H1 H2|start ws H1 H2 Hs IH]; intros i s e Hi.
  - done.
  - destruct i; [|done]. injection Hi as <- <-. lia.
  - destruct i as [|i]; [injection Hi as <- <-; lia|].
    rewrite (IH i s e Hi). lia.
Qed.

Lemma emitted_length text ws : (length (emitted text ws) <= length ws)%nat.
Proof.
  unfold emitted.
  etransitivity; [apply List.filter_length_le|]. by rewrite length_map.
Qed.

(** Window [i] starts at [i * (chunk_size - overlap)] and is [chunk_size]
    wide unless the text ends first; so a text of length [n] gives at most
    [1 + (n - 1) / (chunk_size - overlap)] chunks. *)
Theorem chunk_text_window_positions (text : str) (cs co : Z) :
  0 < cs ->
  let step := cs - clamp_overlap cs co in
  exists chunks ws,
    chunk_text text cs co = Ok chunks /\
    windows text cs co = Some ws /\
    chunks = emitted text ws /\
    (forall i s e, ws !! i = Some (s, e) ->
       s = Z.of_nat i * step /\
       e = Z.min (Z.of_nat i * step + cs) (len text)) /\
    len chunks <= len ws /\
    (len ws - 1) * step < Z.max 1 (len text) /\
    (len chunks - 1) * step < Z.max 1 (len text).
Proof.
  intros Hcs step.
  destruct (chunk_text_windows text cs co Hcs) as (ws & Hws & E).
  exists (emitted text ws), ws.
  pose proof (clamp_overlap_range cs co Hcs) as Hov.
  assert (Hov' : 0 <= clamp_overlap cs co < cs) by lia.
  pose proof (windows_scan _ _ _ _ Hws) as Hscan.
  assert (Hpos : forall i s e, ws !! i = Some (s, e) ->
            s = Z.of_nat i * step /\
            e = Z.min (Z.of_nat i * step + cs) (len text)).
  { intros i s e Hi.
    pose proof (scan_starts _ _ _ _ _ Hscan i s e Hi) as Hs.
    destruct (scan_window _ _ _ Hov' _ _ Hscan i s e Hi) as [_ He].
    unfold step. split; [lia|]. rewrite He. f_equal. lia. }
  assert (Hle : len (emitted text ws) <= len ws).
  { pose proof (emitted_length text ws). unfold len. lia. }
  assert (Hws_bound : (len ws - 1) * step < Z.max 1 (len text)).
  { destruct (last ws) as [[s e]|] eqn:El.
    - rewrite last_lookup in El.
      destruct (Hpos _ _ _ El) as [Hs _].
      destruct (scan_window _ _ _ Hov' _ _ Hscan _ s e El) as [[_ Hlt] _].
      assert (Hn : Z.of_nat (pred (length ws)) = len ws - 1).
      { apply lookup_lt_Some in El. unfold len. lia. }
      rewrite Hn in Hs. lia.
    - apply last_None in El as ->. unfold len, step. simpl. lia. }
  split; [done|]. split; [done|]. split; [done|]. split; [done|].
  split; [done|]. split; [done|].
  assert (0 < step) by (unfold step; lia). nia.
Qed.

Lemma chunk_text_window_positions_witness :
  0 < 3 /\
  let text := lit "a  bcd" in
  let step := 3 - clamp_overlap 3 1 in
  exists chunks ws,
    chunk_text text 3 1 = Ok chunks /\
    windows text 3 1 = Some ws /\
    chunks = emitted text ws /\
    (forall i s e, ws !! i = Some (s, e) ->
       s = Z.of_nat i * step /\
       e = Z.min (Z.of_nat i * step + 3) (len text)) /\
    len chunks <= len ws /\
    (len ws - 1) * step < Z.max 1 (len text) /\
    (len chunks - 1) * step < Z.max 1 (len text).
Proof.
  assert (H1 : 0 < 3) by lia.
  split; [exact H1|].
  exact (chunk_text_window_positions (lit "a  bcd") 3 1 H1).
Defined.

(** ** Rebuilding twice *)

Section RebuildFacts.

Context `{VS : VectorStore}.

Implicit Types w : world.

Ltac unfold_build :=
  unfold build_index, bind, load_documents, ensure_chroma_client,
    recreate_collection, create_collection, DocStore_clear, DocStore_load,
    DocStore_save, modify, lift, resolve_embedder, call_embed, upsert_or_add,
    ret, the_collection.

(** [build_index] changes neither what the environment provides nor what
    the documents directory holds. *)
Lemma build_index_environment
    (docs_dir data_dir name : str) (cs co : Z) (embedder : option Embedder)
    (rebuild : bool) w :
  let w' := (build_index docs_dir data_dir name cs co embedder rebuild w).2 in
  chromadb_installed w' = chromadb_installed w /\
  loader w' = loader w /\
  default_embedder w' = default_embedder w.
Proof.
  intros w'. unfold w'. unfold_build.
  destruct (loader w docs_dir) as [loaded| |]; simpl; try done.
  destruct (chromadb_installed w) eqn:?; simpl; try done.
  destruct rebuild; simpl;
    [|destruct (collections w !! (data_dir, name)) eqn:?; simpl];
    (destruct (build_chunks loaded cs co) as [[|? ?]| |]; simpl; try done;
     destruct embedder as [?e|]; simpl;
       [|destruct (default_embedder w) as [?e| |] eqn:Hde; simpl;
         rewrite ?Hde; try done];
       (match goal with
        | |- context [embed_texts ?e ?t] => destruct (embed_texts e t)
        end; simpl; rewrite ?Hde; try done;
        destruct vs_has_upsert;
        match goal with
        | |- context [vs_upsert ?c ?p] => destruct (vs_upsert c p)
        | |- context [vs_add ?c ?p] => destruct (vs_add c p)
        end; simpl; rewrite ?Hde; done)).
Qed.

(** Two rebuilds in worlds that provide the same give the same outcome, and
    update the files and the collections in the same way, a way that
    changes nothing when applied twice. *)
Lemma build_index_rebuild_agree
    (docs_dir data_dir name : str) (cs co : Z) (embedder : option Embedder)
    w w2 :
  chromadb_installed w2 = chromadb_installed w ->
  loader w2 = loader w ->
  default_embedder w2 = default_embedder w ->
  let r := build_index docs_dir data_dir name cs co embedder true w in
  let r2 := build_index docs_dir data_dir name cs co embedder true w2 in
  r2.1 = r.1 /\
  exists fup cup,
    files r.2 = fup (files w) /\ files r2.2 = fup (files w2) /\
    collections r.2 = cup (collections w) /\
    collections r2.2 = cup (collections w2) /\
    (forall m, fup (fup m) = fup m) /\ (forall m, cup (cup m) = cup m).
Proof.
  intros Hc Hl Hd r r2. unfold r, r2. unfold_build.
  rewrite Hl. simpl.
  destruct (loader w docs_dir) as [loaded| |]; simpl;
    try (split; [done|]; by exists id, id).
  rewrite Hc.
  destruct (chromadb_installed w) eqn:?; simpl;
    try (split; [done|]; by exists id, id).
  set (p := doc_store_path data_dir).
  set (X := JDict (foldl DocStore_add ∅ loaded)).
  set (k := (data_dir, name)).
  assert (Hstop : exists fup cup,
      <[p:=X]> (delete p (files w)) = fup (files w) /\
      <[p:=X]> (delete p (files w2)) = fup (files w2) /\
      <[k:=vs_empty]> (collections w) = cup (collections w) /\
      <[k:=vs_empty]> (collections w2) = cup (collections w2) /\
      (forall m, fup (fup m) = fup m) /\ (forall m, cup (cup m) = cup m)).
  { exists (fun m => <[p:=X]> (delete p m)), (fun m => <[k:=vs_empty]> m).
    repeat split; try done.
    - intros m. by rewrite delete_insert_eq, delete_delete_eq.
    - intros m. by rewrite insert_insert_eq. }
  assert (Hdone : forall c' : collection, exists fup cup,
      <[p:=X]> (delete p (files w)) = fup (files w) /\
      <[p:=X]> (delete p (files w2)) = fup (files w2) /\
      <[k:=c']> (<[k:=vs_empty]> (collections w)) = cup (collections w) /\
      <[k:=c']> (<[k:=vs_empty]> (collections w2)) = cup (collections w2) /\
      (forall m, fup (fup m) = fup m) /\ (forall m, cup (cup m) = cup m)).
  { intros c'.
    exists (fun m => <[p:=X]> (delete p m)),
           (fun m => <[k:=c']> (<[k:=vs_empty]> m)).
    repeat split; try done.
    - intros m. by rewrite delete_insert_eq, delete_delete_eq.
    - intros m. by rewrite !insert_insert_eq. }
  destruct (build_chunks loaded cs co) as [[|ch chunks]| |]; simpl;
    try (split; [done|apply Hstop]).
  destruct embedder as [e|]; simpl;
    [|rewrite ?Hd; destruct (default_embedder w) as [e| |]; simpl;
      try (split; [done|apply Hstop])];
    (destruct (embed_texts e _) as [embs| |]; simpl;
       try (split; [done|apply Hstop]);
     rewrite !lookup_insert_eq; simpl;
     destruct vs_has_upsert;
     match goal with
     | |- context [vs_upsert ?c ?q] => destruct (vs_upsert c q) as [c'| |]
     | |- context [vs_add ?c ?q] => destruct (vs_add c q) as [c'| |]
     end; simpl;
     first [split; [done|apply Hstop] | split; [done|apply Hdone]]).
Qed.

(** A rebuild repeated on the world the first one left gives the same
    outcome and leaves the same files and collections: rebuilding is
    idempotent, whether the build goes through or fails. *)
Theorem build_index_rebuild_idempotent
    (docs_dir data_dir name : str) (cs co : Z) (embedder : option Embedder) w :
  let r1 := build_index docs_dir data_dir name cs co embedder true w in
  let r2 := build_index docs_dir data_dir name cs co embedder true r1.2 in
  r2.1 = r1.1 /\ files r2.2 = files r1.2 /\
  collections r2.2 = collections r1.2.
Proof.
  intros r1 r2.
  destruct (build_index_environment docs_dir data_dir name cs co embedder
              true w) as (Hc & Hl & Hd).
  fold r1 in Hc, Hl, Hd.
  destruct (build_index_rebuild_agree docs_dir data_dir name cs co embedder
              w r1.2 Hc Hl Hd)
    as (Hout & fup & cup & Hf1 & Hf2 & Hc1 & Hc2 & Hfi & Hci).
  fold r1 in Hout, Hf1, Hf2, Hc1, Hc2. fold r2 in Hout, Hf2, Hc2.
  split; [done|]. split.
  - by rewrite Hf2, Hf1, Hfi.
  - by rewrite Hc2, Hc1, Hci.
Qed.

End RebuildFacts.

(** ** Selecting the embedder *)

Section EmbedderFacts.

Variable str_lower : str -> str.
Variable sentence_transformer_embedder : outcome Embedder.
Variable simple_keyword_embedder : Embedder.

(** A non-empty [backend] argument decides alone, whatever the
    environment; [None] and the empty string both defer to
    [MCP_EMBEDDING_BACKEND], and with that variable unset the backend is
    the one named "sentence-transformer". *)
Remark get_embedder_backend_precedence (env env' : gmap str str)
    (c : char) (s : str) :
  get_embedder str_lower sentence_transformer_embedder
    simple_keyword_embedder env (Some (c :: s))
  = get_embedder str_lower sentence_transformer_embedder
      simple_keyword_embedder env' (Some (c :: s)) /\
  get_embedder str_lower sentence_transformer_embedder
    simple_keyword_embedder env (Some [])
  = get_embedder str_lower sentence_transformer_embedder
      simple_keyword_embedder env None /\
  get_embedder str_lower sentence_transformer_embedder
    simple_keyword_embedder (delete (lit "MCP_EMBEDDING_BACKEND") env) None
  = get_embedder str_lower sentence_transformer_embedder
      simple_keyword_embedder env' (Some (lit "sentence-transformer")).
Proof.
  unfold get_embedder, getenv. split; [done|]. split; [done|].
  by rewrite lookup_delete_eq.
Qed.

End EmbedderFacts.
